(** * metalRough: spec/gloss to metal/rough conversion of glTF materials

    A shallow embedding of the [metalRough] transform of glTF-Transform
    (the second unit of [src/rollup.config.js]) and of the part of the scene
    graph it drives.  JavaScript numbers are IEEE 754 binary64 values, so the
    embedding computes with Rocq's primitive floats; the pixel buffer holds
    8-bit channels as [Z]. *)

From Stdlib Require Import ZArith Floats Uint63 Lia.
From stdpp Require Import base option list gmap strings.

Open Scope Z_scope.

(** ** JavaScript numbers *)

Module JS.

(** The Number read back from an 8-bit channel. *)
Definition of_byte (b : Z) : float := PrimFloat.of_uint63 (Uint63.of_Z b).

(** The Number with integer value [n], for [|n| < 2^63]. *)
Definition of_Z (n : Z) : float :=
  if n <? 0 then (- PrimFloat.of_uint63 (Uint63.of_Z (- n)))%float
  else PrimFloat.of_uint63 (Uint63.of_Z n).

(** The integer [floor (v + 1/2)] for the finite value
    [v = (-1)^s * m * 2^e] with [e < 0]. *)
Definition round_half_up (s : bool) (m : positive) (e : Z) : Z :=
  Z.shiftr (2 * cond_Zopp s (Z.pos m) + 2 ^ (- e)) (- e + 1).

(** [Math.round]: the integral Number closest to [x], ties towards
    +infinity; NaN, the infinities and the zeros are returned as they are,
    and a negative [x] that rounds to zero gives -0. *)
Definition Math_round (x : float) : float :=
  match Prim2SF x with
  | S754_finite s m e =>
      if 0 <=? e then x
      else
        let n := round_half_up s m e in
        if n =? 0 then (if s then neg_zero else zero) else of_Z n
  | _ => x
  end.

(** [ToUint8], the conversion applied when a Number is stored in an
    unsigned 8-bit element: truncate towards zero, then reduce modulo 256;
    NaN and the infinities give 0. *)
Definition ToUint8 (x : float) : Z :=
  match Prim2SF x with
  | S754_finite s m e => cond_Zopp s (Z.shiftl (Z.pos m) e) mod 256
  | _ => 0
  end.

End JS.

(** ** Texture pixel buffer *)

(** Modelled from the spec: the Texture Pixel Buffer collaborator ([ndarray]
    pixels as decoded by the image helpers, which are not part of the
    sources) is "a 2-D grid of per-pixel channel values (four 8-bit channels)
    with random-access get/set by (x, y, channel)", both 0-based. *)
Record PixelBuffer := mkPixelBuffer {
  shape0 : nat;
  shape1 : nat;
  data : list Z
}.

Definition emptyPixels : PixelBuffer := mkPixelBuffer 0 0 [].

Definition offset (p : PixelBuffer) (i j c : nat) : nat :=
  ((i * shape1 p + j) * 4 + c)%nat.

(** Modelled from the spec: [get(x, y, channel) -> byte]. *)
Definition get (p : PixelBuffer) (i j c : nat) : Z :=
  default 0 (data p !! offset p i j c).

(** Modelled from the spec: [set(x, y, channel, byte)].  The stored value is
    narrowed to the 8 bits of a channel. *)
Definition set (p : PixelBuffer) (i j c : nat) (v : float) : PixelBuffer :=
  mkPixelBuffer (shape0 p) (shape1 p)
    (<[offset p i j c := JS.ToUint8 v]> (data p)).

(** The buffer is a [shape0 * shape1] grid of four channels holding bytes. *)
Definition wf_pixels (p : PixelBuffer) : Prop :=
  length (data p) = (shape0 p * shape1 p * 4)%nat ∧
  Forall (λ b, 0 <= b <= 255) (data p).

Definition wf_pixelsb (p : PixelBuffer) : bool :=
  (length (data p) =? shape0 p * shape1 p * 4)%nat &&
  forallb (λ b, (0 <=? b) && (b <=? 255)) (data p).

(** Pixel coordinates in row-major order. *)
Definition coordinates (n0 n1 : nat) : list (nat * nat) :=
  i ← seq 0 n0; pair i <$> seq 0 n1.

(** Modelled from the spec: the Texture Channel Recoder invokes the rewrite
    function "once per pixel coordinate", "in row-major order", on the decoded
    pixels of the source; the image dimensions are preserved. *)
Definition rewritePixels (fn : PixelBuffer → nat → nat → PixelBuffer)
    (pixels : PixelBuffer) : PixelBuffer :=
  foldl (λ p ij, fn p ij.1 ij.2) pixels
    (coordinates (shape0 pixels) (shape1 pixels)).

(** The two per-pixel callbacks of [metalRough]. *)

(** [pixels.set(i, j, 3, 255)]: remove glossiness. *)
Definition removeGlossiness (pixels : PixelBuffer) (i j : nat) : PixelBuffer :=
  set pixels i j 3 255%float.

(** Invert glossiness into the roughness channel. *)
Definition invertGlossiness (glossinessFactor : float)
    (pixels : PixelBuffer) (i j : nat) : PixelBuffer :=
  let roughness :=
    (255 - JS.Math_round (JS.of_byte (get pixels i j 3) * glossinessFactor))%float in
  let pixels := set pixels i j 0 0%float in
  let pixels := set pixels i j 1 roughness in
  let pixels := set pixels i j 2 0%float in
  set pixels i j 3 255%float.

(** ** Scene graph *)

(** Modelled from the spec: the Scene Graph collaborator
    ([@gltf-transform/core], not part of the sources).  Textures and extension
    records live in a central arena keyed by stable identifiers; a texture
    binding carries "its own texture-coordinate-set index and sampler settings
    (wrap modes, filters)". *)
Record TextureInfo := mkTextureInfo { texCoord : Z }.

Record TextureSampler := mkTextureSampler {
  magFilter : option Z;
  minFilter : option Z;
  wrapS : Z;
  wrapT : Z
}.

Record TextureLink := mkTextureLink {
  texture : nat;
  textureInfo : TextureInfo;
  textureSampler : TextureSampler
}.

Definition defaultTextureInfo : TextureInfo := mkTextureInfo 0.
Definition defaultTextureSampler : TextureSampler :=
  mkTextureSampler None None 10497 10497.

(** A fresh binding, as made by a texture setter. *)
Definition linkTexture (t : nat) : TextureLink :=
  mkTextureLink t defaultTextureInfo defaultTextureSampler.

Definition copyTextureInfo (src : TextureInfo) (l : TextureLink) : TextureLink :=
  mkTextureLink (texture l) src (textureSampler l).

Definition copyTextureSampler (src : TextureSampler) (l : TextureLink) : TextureLink :=
  mkTextureLink (texture l) (textureInfo l) src.

Record Texture := mkTexture { image : PixelBuffer }.

(** Modelled from the spec: SpecGlossExtension, the input record. *)
Record PBRSpecularGlossiness := mkPBRSpecularGlossiness {
  diffuseFactor : list float;
  sgSpecularFactor : list float;
  glossinessFactor : float;
  diffuseTexture : option TextureLink;
  specularGlossinessTexture : option TextureLink
}.

(** Modelled from the spec: SpecularExtension, an output record. *)
Record Specular := mkSpecular {
  specularFactor : float;
  specularColorFactor : list float;
  specularTexture : option TextureLink
}.

(** Modelled from the spec: IORExtension, an output record. *)
Record IOR := mkIOR { ior : float }.

(** Modelled from the spec: Material.  [extensions] maps an extension name to
    the identifier of the record attached under it. *)
Record Material := mkMaterial {
  baseColorFactor : list float;
  metallicFactor : float;
  roughnessFactor : float;
  baseColorTexture : option TextureLink;
  metallicRoughnessTexture : option TextureLink;
  extensions : gmap string nat
}.

(** The arena: textures and, per extension registry, its records. *)
Record Graph := mkGraph {
  textures : gmap nat Texture;
  specGlossRecords : gmap nat PBRSpecularGlossiness;
  specularRecords : gmap nat Specular;
  iorRecords : gmap nat IOR
}.

(** The document: the names of the extensions declared as used, the
    materials in the order the root lists them, and the arena. *)
Record Document := mkDocument {
  extensionsUsed : list string;
  materials : list Material;
  graph : Graph
}.

Definition KHR_materials_pbrSpecularGlossiness : string :=
  "KHR_materials_pbrSpecularGlossiness".
Definition KHR_materials_ior : string := "KHR_materials_ior".
Definition KHR_materials_specular : string := "KHR_materials_specular".

(** *** Material accessors *)

Definition getBaseColorTexture (m : Material) : option nat :=
  texture <$> baseColorTexture m.

Definition getMetallicRoughnessTexture (m : Material) : option nat :=
  texture <$> metallicRoughnessTexture m.

Definition setBaseColorFactor (v : list float) (m : Material) : Material :=
  mkMaterial v (metallicFactor m) (roughnessFactor m) (baseColorTexture m)
    (metallicRoughnessTexture m) (extensions m).

Definition setMetallicFactor (v : float) (m : Material) : Material :=
  mkMaterial (baseColorFactor m) v (roughnessFactor m) (baseColorTexture m)
    (metallicRoughnessTexture m) (extensions m).

Definition setRoughnessFactor (v : float) (m : Material) : Material :=
  mkMaterial (baseColorFactor m) (metallicFactor m) v (baseColorTexture m)
    (metallicRoughnessTexture m) (extensions m).

Definition withBaseColorTexture (l : option TextureLink) (m : Material) : Material :=
  mkMaterial (baseColorFactor m) (metallicFactor m) (roughnessFactor m) l
    (metallicRoughnessTexture m) (extensions m).

Definition withMetallicRoughnessTexture (l : option TextureLink) (m : Material) : Material :=
  mkMaterial (baseColorFactor m) (metallicFactor m) (roughnessFactor m)
    (baseColorTexture m) l (extensions m).

Definition setBaseColorTexture (t : nat) : Material → Material :=
  withBaseColorTexture (Some (linkTexture t)).

Definition setMetallicRoughnessTexture (t : nat) : Material → Material :=
  withMetallicRoughnessTexture (Some (linkTexture t)).

(** [setExtension(name, record)]; [None] is JavaScript's [null]. *)
Definition setExtension (name : string) (r : option nat) (m : Material) : Material :=
  mkMaterial (baseColorFactor m) (metallicFactor m) (roughnessFactor m)
    (baseColorTexture m) (metallicRoughnessTexture m)
    (match r with
     | Some id => <[name := id]> (extensions m)
     | None => delete name (extensions m)
     end).

(** [material.getExtension('KHR_materials_pbrSpecularGlossiness')]. *)
Definition getSpecGloss (m : Material) (g : Graph) : option PBRSpecularGlossiness :=
  id ← extensions m !! KHR_materials_pbrSpecularGlossiness;
  specGlossRecords g !! id.

Definition getSpecular (m : Material) (g : Graph) : option Specular :=
  id ← extensions m !! KHR_materials_specular;
  specularRecords g !! id.

Definition getIOR (m : Material) (g : Graph) : option IOR :=
  id ← extensions m !! KHR_materials_ior;
  iorRecords g !! id.

(** *** Arena operations *)

Definition withTextures (ts : gmap nat Texture) (g : Graph) : Graph :=
  mkGraph ts (specGlossRecords g) (specularRecords g) (iorRecords g).

Definition withSpecularRecords (rs : gmap nat Specular) (g : Graph) : Graph :=
  mkGraph (textures g) (specGlossRecords g) rs (iorRecords g).

Definition withIorRecords (rs : gmap nat IOR) (g : Graph) : Graph :=
  mkGraph (textures g) (specGlossRecords g) (specularRecords g) rs.

Definition withSpecGlossRecords (rs : gmap nat PBRSpecularGlossiness) (g : Graph) : Graph :=
  mkGraph (textures g) rs (specularRecords g) (iorRecords g).

(** [doc.createTexture()]: a new texture, without pixels yet. *)
Definition createTexture (g : Graph) : nat * Graph :=
  let id := fresh (dom (textures g)) in
  (id, withTextures (<[id := mkTexture emptyPixels]> (textures g)) g).

(** [specExtension.createSpecular()]: a new record with no texture. *)
Definition createSpecular (g : Graph) : nat * Graph :=
  let id := fresh (dom (specularRecords g)) in
  (id, withSpecularRecords
         (<[id := mkSpecular 1%float [1%float; 1%float; 1%float] None]> (specularRecords g)) g).

(** [iorExtension.createIOR()]. *)
Definition createIOR (g : Graph) : nat * Graph :=
  let id := fresh (dom (iorRecords g)) in
  (id, withIorRecords (<[id := mkIOR 1.5%float]> (iorRecords g)) g).

(** Setters of a Specular record, applied through its handle. *)
Definition setSpecularFactor (v : float) (s : Specular) : Specular :=
  mkSpecular v (specularColorFactor s) (specularTexture s).

Definition setSpecularColorFactor (v : list float) (s : Specular) : Specular :=
  mkSpecular (specularFactor s) v (specularTexture s).

Definition withSpecularTexture (l : option TextureLink) (s : Specular) : Specular :=
  mkSpecular (specularFactor s) (specularColorFactor s) l.

Definition setSpecularTexture (t : nat) : Specular → Specular :=
  withSpecularTexture (Some (linkTexture t)).

Definition onSpecular (id : nat) (f : Specular → Specular) (g : Graph) : Graph :=
  withSpecularRecords (alter f id (specularRecords g)) g.

Definition setIOR (id : nat) (v : float) (g : Graph) : Graph :=
  withIorRecords (alter (λ _, mkIOR v) id (iorRecords g)) g.

(** *** Errors *)

Inductive Error := RecodingFailure.

Inductive result (A : Type) :=
| Ok (a : A)
| Err (e : Error).
Arguments Ok {A} a.
Arguments Err {A} e.

#[global] Instance result_ret : MRet result := λ A, Ok.
#[global] Instance result_bind : MBind result := λ A B f r,
  match r with
  | Ok a => f a
  | Err e => Err e
  end.

(** Modelled from the spec: [rewriteTexture(source, target, fn)] from
    [./utils] (not part of the sources).  The pixels of [source] are decoded,
    rewritten pixel by pixel and stored as the image of [target]; [source] is
    not mutated.  A source that cannot be decoded is a recoding failure. *)
Definition rewriteTexture (source target : nat)
    (fn : PixelBuffer → nat → nat → PixelBuffer) (g : Graph) : result Graph :=
  match textures g !! source with
  | Some src =>
      Ok (withTextures
            (<[target := mkTexture (rewritePixels fn (image src))]> (textures g)) g)
  | None => Err RecodingFailure
  end.

(** ** The converter *)

(** A JavaScript [Set] of textures: insertion-ordered, without duplicates;
    [None] is [null], which [add] stores like any other value. *)
Definition Set_add (x : option nat) (s : list (option nat)) : list (option nat) :=
  if decide (x ∈ s) then s else s ++ [x].

Definition copyBaseColorTextureInfo (src : TextureInfo) (m : Material) : Material :=
  withBaseColorTexture (copyTextureInfo src <$> baseColorTexture m) m.

Definition copyBaseColorTextureSampler (src : TextureSampler) (m : Material) : Material :=
  withBaseColorTexture (copyTextureSampler src <$> baseColorTexture m) m.

Definition copyMetallicRoughnessTextureInfo (src : TextureInfo) (m : Material) : Material :=
  withMetallicRoughnessTexture (copyTextureInfo src <$> metallicRoughnessTexture m) m.

Definition copyMetallicRoughnessTextureSampler (src : TextureSampler) (m : Material) : Material :=
  withMetallicRoughnessTexture (copyTextureSampler src <$> metallicRoughnessTexture m) m.

Definition copySpecularTextureInfo (src : TextureInfo) (s : Specular) : Specular :=
  withSpecularTexture (copyTextureInfo src <$> specularTexture s) s.

Definition copySpecularTextureSampler (src : TextureSampler) (s : Specular) : Specular :=
  withSpecularTexture (copyTextureSampler src <$> specularTexture s) s.

(** Lines 84-89: the metal/rough factors and the IOR and specular records. *)
Definition setUpMetalRough (specGloss : PBRSpecularGlossiness) (specular : nat)
    (material : Material) (g : Graph) : Material * Graph :=
  let material := setBaseColorFactor (diffuseFactor specGloss) material in
  let material := setMetallicFactor 0%float material in
  let material := setRoughnessFactor 1%float material in
  let '(iorRecord, g) := createIOR g in
  let g := setIOR iorRecord 1000%float g in
  let material := setExtension KHR_materials_ior (Some iorRecord) material in
  (setExtension KHR_materials_specular (Some specular) material, g).

(** Lines 92-97: move diffuse -> baseColor. *)
Definition moveDiffuse (specGloss : PBRSpecularGlossiness) (material : Material) : Material :=
  match diffuseTexture specGloss with
  | Some diffuse =>
      let material := setBaseColorTexture (texture diffuse) material in
      let material := copyBaseColorTextureInfo (textureInfo diffuse) material in
      copyBaseColorTextureSampler (textureSampler diffuse) material
  | None => material
  end.

(** Lines 100-130: move specular + gloss -> specular + roughness. *)
Definition moveSpecularGlossiness (specGloss : PBRSpecularGlossiness) (specular : nat)
    (material : Material) (g : Graph) : result (Material * Graph) :=
  match specularGlossinessTexture specGloss with
  | Some sg =>
      let sgTexture := texture sg in
      let sgTextureInfo := textureInfo sg in
      let sgTextureSampler := textureSampler sg in
      let '(specularTexture, g) := createTexture g in
      g ← rewriteTexture sgTexture specularTexture removeGlossiness g;
      let g := onSpecular specular (setSpecularTexture specularTexture) g in
      let g := onSpecular specular (copySpecularTextureInfo sgTextureInfo) g in
      let g := onSpecular specular (copySpecularTextureSampler sgTextureSampler) g in
      let glossinessFactor := glossinessFactor specGloss in
      let '(metalRoughTexture, g) := createTexture g in
      g ← rewriteTexture sgTexture metalRoughTexture (invertGlossiness glossinessFactor) g;
      let material := setMetallicRoughnessTexture metalRoughTexture material in
      let material := copyMetallicRoughnessTextureInfo sgTextureInfo material in
      let material := copyMetallicRoughnessTextureSampler sgTextureSampler material in
      mret (material, g)
  | None =>
      let g := onSpecular specular (setSpecularColorFactor (sgSpecularFactor specGloss)) g in
      mret (setRoughnessFactor (1 - glossinessFactor specGloss)%float material, g)
  end.

(** The body of the loop over the materials (lines 66-133). *)
Definition convertMaterial (material : Material) (g : Graph)
    (inputTextures : list (option nat))
    : result (Material * Graph * list (option nat)) :=
  match getSpecGloss material g with
  | None => mret (material, g, inputTextures)
  | Some specGloss =>
      let '(specular, g) := createSpecular g in
      let g := onSpecular specular (setSpecularFactor 1%float) g in
      let g := onSpecular specular (setSpecularColorFactor (sgSpecularFactor specGloss)) g in
      let inputTextures :=
        Set_add (texture <$> specularGlossinessTexture specGloss) inputTextures in
      let inputTextures := Set_add (getBaseColorTexture material) inputTextures in
      let inputTextures := Set_add (getMetallicRoughnessTexture material) inputTextures in
      let '(material, g) := setUpMetalRough specGloss specular material g in
      let material := moveDiffuse specGloss material in
      '(material, g) ← moveSpecularGlossiness specGloss specular material g;
      mret (setExtension KHR_materials_pbrSpecularGlossiness None material,
            g, inputTextures)
  end.

Fixpoint convertMaterials (ms : list Material) (g : Graph)
    (inputTextures : list (option nat))
    : result (list Material * Graph * list (option nat)) :=
  match ms with
  | [] => mret ([], g, inputTextures)
  | material :: rest =>
      '(material, g, inputTextures) ← convertMaterial material g inputTextures;
      '(rest, g, inputTextures) ← convertMaterials rest g inputTextures;
      mret (material :: rest, g, inputTextures)
  end.

(** Modelled from the spec: [doc.createExtension] gives the registry of an
    extension, declaring the extension as used when it was not. *)
Definition createExtension (name : string) (doc : Document) : Document :=
  if bool_decide (name ∈ extensionsUsed doc) then doc
  else mkDocument (extensionsUsed doc ++ [name]) (materials doc) (graph doc).

(** Modelled from the spec: the registry's [dispose()] "detaches it from every
    material and from the document's used-extensions list"; its records, which
    a material may only have detached, end with the registry. *)
Definition disposeSpecGlossExtension (doc : Document) : Document :=
  mkDocument
    (filter (λ name, name ≠ KHR_materials_pbrSpecularGlossiness) (extensionsUsed doc))
    (setExtension KHR_materials_pbrSpecularGlossiness None <$> materials doc)
    (withSpecGlossRecords ∅ (graph doc)).

(** *** Parents of a texture *)

Inductive Parent :=
| Root
| MaterialParent (i : nat)
| SpecGlossParent (id : nat)
| SpecularParent (id : nat).

Definition linksTo (t : nat) (l : option TextureLink) : bool :=
  bool_decide (texture <$> l = Some t).

Definition linkParent (t : nat) (p : Parent) (l : option TextureLink) : list Parent :=
  if linksTo t l then [p] else [].

Definition materialLinks (t i : nat) (m : Material) : list Parent :=
  linkParent t (MaterialParent i) (baseColorTexture m) ++
  linkParent t (MaterialParent i) (metallicRoughnessTexture m).

Definition specGlossLinks (t : nat) (r : nat * PBRSpecularGlossiness) : list Parent :=
  linkParent t (SpecGlossParent r.1) (diffuseTexture r.2) ++
  linkParent t (SpecGlossParent r.1) (specularGlossinessTexture r.2).

Definition specularLinks (t : nat) (r : nat * Specular) : list Parent :=
  linkParent t (SpecularParent r.1) (specularTexture r.2).

(** Modelled from the spec: [tex.listParents()], "list referencing parents".
    The root holds every texture of the document; each binding of a material
    or of an extension record to the texture adds its holder.  A texture that
    is not in the graph has no parent. *)
Definition listParents (doc : Document) (t : nat) : list Parent :=
  match textures (graph doc) !! t with
  | Some _ =>
      Root :: mjoin (imap (materialLinks t) (materials doc))
        ++ (map_to_list (specGlossRecords (graph doc)) ≫= specGlossLinks t)
        ++ (map_to_list (specularRecords (graph doc)) ≫= specularLinks t)
  | None => []
  end.

Definition unlink (t : nat) (l : option TextureLink) : option TextureLink :=
  if linksTo t l then None else l.

Definition unlinkMaterial (t : nat) (m : Material) : Material :=
  withMetallicRoughnessTexture (unlink t (metallicRoughnessTexture m))
    (withBaseColorTexture (unlink t (baseColorTexture m)) m).

Definition unlinkSpecGloss (t : nat) (r : PBRSpecularGlossiness) : PBRSpecularGlossiness :=
  mkPBRSpecularGlossiness (diffuseFactor r) (sgSpecularFactor r) (glossinessFactor r)
    (unlink t (diffuseTexture r)) (unlink t (specularGlossinessTexture r)).

Definition unlinkSpecular (t : nat) (s : Specular) : Specular :=
  withSpecularTexture (unlink t (specularTexture s)) s.

(** Modelled from the spec: [tex.dispose()] "removes from graph, invalid
    afterward": the texture leaves the arena and every binding to it. *)
Definition disposeTexture (t : nat) (doc : Document) : Document :=
  mkDocument (extensionsUsed doc)
    (unlinkMaterial t <$> materials doc)
    (mkGraph (delete t (textures (graph doc)))
       (unlinkSpecGloss t <$> specGlossRecords (graph doc))
       (unlinkSpecular t <$> specularRecords (graph doc))
       (iorRecords (graph doc))).

(** Lines 140-142: clean up unused textures. *)
Definition cleanUpTexture (doc : Document) (tex : option nat) : Document :=
  match tex with
  | Some t =>
      if (length (listParents doc t) =? 1)%nat then disposeTexture t doc else doc
  | None => doc
  end.

Definition cleanUp (inputTextures : list (option nat)) (doc : Document) : Document :=
  foldl cleanUpTexture doc inputTextures.

(** *** The transform *)

Inductive LogLevel := LogDebug | LogWarn.

Definition NAME : string := "metalRough".

Definition notFoundMessage : string :=
  NAME +:+ ": Extension " +:+ KHR_materials_pbrSpecularGlossiness
    +:+ " not found on given document.".

Definition completeMessage : string := NAME +:+ ": Complete.".

(** Lines 59-61: the three registries. *)
Definition createExtensions (doc : Document) : Document :=
  let doc := createExtension KHR_materials_ior doc in
  let doc := createExtension KHR_materials_specular doc in
  createExtension KHR_materials_pbrSpecularGlossiness doc.

(** Lines 136-142, on the outcome of the loop. *)
Definition finish (doc : Document) (ms : list Material) (g : Graph)
    (inputTextures : list (option nat)) : Document :=
  let doc := mkDocument (extensionsUsed doc) ms g in
  let doc := disposeSpecGlossExtension doc in
  cleanUp inputTextures doc.

(** [metalRough()(doc)]: the document after the run and what was logged. *)
Definition metalRough (doc : Document) : result (Document * list (LogLevel * string)) :=
  let extensionName := KHR_materials_pbrSpecularGlossiness in
  if negb (bool_decide (extensionName ∈ extensionsUsed doc)) then
    mret (doc, [(LogWarn, notFoundMessage)])
  else
    let doc := createExtensions doc in
    '(ms, g, inputTextures) ← convertMaterials (materials doc) (graph doc) [];
    mret (finish doc ms g inputTextures, [(LogDebug, completeMessage)]).

(** ** Notions used to state the properties *)

(** The four channels of the pixel at [(i, j)]. *)
Definition pixelAt (p : PixelBuffer) (i j : nat) : list Z :=
  [get p i j 0; get p i j 1; get p i j 2; get p i j 3].

Definition sameShape (p q : PixelBuffer) : Prop :=
  shape0 q = shape0 p ∧ shape1 q = shape1 p ∧ length (data q) = length (data p).

(** [g'] keeps every texture and record of [g] as it is, and has the same
    spec/gloss records. *)
Definition graph_le (g g' : Graph) : Prop :=
  textures g ⊆ textures g' ∧
  specGlossRecords g' = specGlossRecords g ∧
  specularRecords g ⊆ specularRecords g' ∧
  iorRecords g ⊆ iorRecords g'.

(** The texture was in the graph of [before] and is not in that of [after]. *)
Definition disposedBy (before after : Document) (t : nat) : Prop :=
  is_Some (textures (graph before) !! t) ∧ textures (graph after) !! t = None.

(** The document handed to the clean-up pass of a run. *)
Definition beforeCleanUp (doc : Document) (ms : list Material) (g : Graph) : Document :=
  disposeSpecGlossExtension (mkDocument (extensionsUsed (createExtensions doc)) ms g).

(** The textures a converted material stashes for the clean-up pass. *)
Definition stashTextures (specGloss : PBRSpecularGlossiness) (material : Material)
    (inputTextures : list (option nat)) : list (option nat) :=
  Set_add (getMetallicRoughnessTexture material)
    (Set_add (getBaseColorTexture material)
       (Set_add (texture <$> specularGlossinessTexture specGloss) inputTextures)).

(** What the loop body makes of a material [m] carrying the record [sg], in
    the graph [g]: the converted material [m'] and the graph [g'] it leaves. *)
Definition converted (sg : PBRSpecularGlossiness) (m : Material) (g : Graph)
    (m' : Material) (g' : Graph) : Prop :=
  let sid := fresh (dom (specularRecords g)) in
  let iid := fresh (dom (iorRecords g)) in
  baseColorFactor m' = diffuseFactor sg ∧
  metallicFactor m' = 0%float ∧
  baseColorTexture m' =
    match diffuseTexture sg with Some d => Some d | None => baseColorTexture m end ∧
  extensions m' =
    delete KHR_materials_pbrSpecularGlossiness
      (<[KHR_materials_specular := sid]> (<[KHR_materials_ior := iid]> (extensions m))) ∧
  iorRecords g' = <[iid := mkIOR 1000%float]> (iorRecords g) ∧
  specGlossRecords g' = specGlossRecords g ∧
  match specularGlossinessTexture sg with
  | None =>
      roughnessFactor m' = (1 - glossinessFactor sg)%float ∧
      metallicRoughnessTexture m' = metallicRoughnessTexture m ∧
      textures g' = textures g ∧
      specularRecords g' =
        <[sid := mkSpecular 1%float (sgSpecularFactor sg) None]> (specularRecords g)
  | Some l =>
      ∃ src t1 t2,
        textures g !! texture l = Some src ∧
        textures g !! t1 = None ∧ textures g !! t2 = None ∧ t1 ≠ t2 ∧
        roughnessFactor m' = 1%float ∧
        metallicRoughnessTexture m' =
          Some (mkTextureLink t2 (textureInfo l) (textureSampler l)) ∧
        textures g' =
          <[t2 := mkTexture (rewritePixels (invertGlossiness (glossinessFactor sg)) (image src))]>
            (<[t1 := mkTexture (rewritePixels removeGlossiness (image src))]> (textures g)) ∧
        specularRecords g' =
          <[sid := mkSpecular 1%float (sgSpecularFactor sg)
                     (Some (mkTextureLink t1 (textureInfo l) (textureSampler l)))]>
            (specularRecords g)
  end.

(** The document with its textures replaced. *)
Definition withDocTextures (ts : gmap nat Texture) (doc : Document) : Document :=
  mkDocument (extensionsUsed doc) (materials doc) (withTextures ts (graph doc)).

(** The invariant of the right shifts that round a mantissa [m0]: after [k]
    shifts the kept bits are below [m0], strictly when bits were lost. *)
Definition shr_inv (m0 k : Z) (mrs : shr_record) : Prop :=
  0 <= shr_m mrs ∧ shr_m mrs * 2 ^ k <= m0 ∧
  (loc_of_shr_record mrs ≠ loc_Exact → shr_m mrs * 2 ^ k < m0).

(** ** Sample documents *)

(** A 1x2 combined specular+glossiness image. *)
Definition samplePixels : PixelBuffer :=
  mkPixelBuffer 1 2 [10; 20; 30; 200; 40; 50; 60; 100].

Definition sampleSpecGloss0 : PBRSpecularGlossiness :=
  mkPBRSpecularGlossiness [1; 0; 0; 1]%float [0.5; 0.5; 0.5]%float 0.5%float
    (Some (mkTextureLink 1 (mkTextureInfo 1) (mkTextureSampler (Some 9729) None 33071 10497)))
    (Some (mkTextureLink 0 (mkTextureInfo 2) defaultTextureSampler)).

Definition sampleSpecGloss1 : PBRSpecularGlossiness :=
  mkPBRSpecularGlossiness [0; 1; 0; 1]%float [0.25; 0.5; 0.75]%float 0.75%float
    None None.

(** A material with a combined texture and a diffuse texture, a material
    with scalar spec/gloss data, and a material without a record. *)
Definition sampleMaterial0 : Material :=
  mkMaterial [1; 1; 1; 1]%float 1%float 1%float (Some (linkTexture 2)) None
    {[ KHR_materials_pbrSpecularGlossiness := 0%nat ]}.

Definition sampleMaterial1 : Material :=
  mkMaterial [1; 1; 1; 1]%float 1%float 1%float None None
    {[ KHR_materials_pbrSpecularGlossiness := 1%nat ]}.

Definition sampleMaterial2 : Material :=
  mkMaterial [1; 1; 1; 1]%float 0.5%float 0.5%float (Some (linkTexture 1)) None ∅.

Definition sampleGraph : Graph :=
  mkGraph
    (list_to_map [(0%nat, mkTexture samplePixels); (1%nat, mkTexture emptyPixels);
                  (2%nat, mkTexture emptyPixels)])
    (list_to_map [(0%nat, sampleSpecGloss0); (1%nat, sampleSpecGloss1)])
    ∅ ∅.

Definition sampleDoc : Document :=
  mkDocument [KHR_materials_pbrSpecularGlossiness]
    [sampleMaterial0; sampleMaterial1; sampleMaterial2] sampleGraph.

(** The same document without the declaration of the extension. *)
Definition undeclaredDoc : Document :=
  mkDocument [] (materials sampleDoc) sampleGraph.

Definition sampleOut : Document :=
  match metalRough sampleDoc with
  | Ok (doc, _) => doc
  | Err _ => sampleDoc
  end.

(** A document with one material whose record binds the sample image, for
    a given glossiness factor. *)
Definition glossDoc (gf : float) : Document :=
  mkDocument [KHR_materials_pbrSpecularGlossiness]
    [mkMaterial [1; 1; 1; 1]%float 1%float 1%float None None
       {[ KHR_materials_pbrSpecularGlossiness := 0%nat ]}]
    (mkGraph {[ 0%nat := mkTexture samplePixels ]}
       {[ 0%nat := mkPBRSpecularGlossiness [1; 1; 1; 1]%float [1; 1; 1]%float gf None
                     (Some (linkTexture 0)) ]}
       ∅ ∅).

(** A document with two materials that share one spec/gloss record. *)
Definition twinDoc : Document :=
  mkDocument [KHR_materials_pbrSpecularGlossiness; "KHR_materials_unlit"]
    [sampleMaterial0; sampleMaterial0] sampleGraph.

(** The document a run returns ([doc] itself when the run fails). *)
Definition outcome (doc : Document) : Document :=
  match metalRough doc with
  | Ok (doc', _) => doc'
  | Err _ => doc
  end.

(** ** The bundler configuration

    The first unit of [src/rollup.config.js]: one set of Rollup options per
    package.  [camelcase] is the npm package of that name, taken as a
    parameter; Rollup's three plugins are opaque values. *)

Module Rollup.

Inductive Plugin := typescript | resolve | commonjs.

Record OutputOptions := mkOutputOptions {
  file : string;
  format : string;
  name : option string;
  sourcemap : option bool
}.

Record RollupOptions := mkRollupOptions {
  input : string;
  output : list OutputOptions;
  plugins : list Plugin
}.

Definition PACKAGES : list string :=
  ["atlas"; "occlusion-vertex"; "prune"; "split"; "util"].

Definition options (camelcase : string → string) (name : string) : RollupOptions :=
  mkRollupOptions
    ("packages/" +:+ name +:+ "/src/index.ts")
    [ mkOutputOptions
        ("packages/" +:+ name +:+ "/dist/gltf-transform-" +:+ name +:+ ".js")
        "cjs" None (Some true);
      mkOutputOptions
        ("packages/" +:+ name +:+ "/dist/gltf-transform-" +:+ name +:+ ".umd.js")
        "umd" (Some ("gltfTransform." +:+ camelcase name)) (Some true);
      mkOutputOptions
        ("packages/" +:+ name +:+ "/dist/gltf-transform-" +:+ name +:+ ".module.js")
        "es" None None ]
    [typescript; resolve; commonjs].

Definition default (camelcase : string → string) : list RollupOptions :=
  options camelcase <$> PACKAGES.

End Rollup.

(** * Properties *)

(** ** Pixel buffers *)

Lemma offset_lt p i j c :
  length (data p) = (shape0 p * shape1 p * 4)%nat →
  (i < shape0 p)%nat → (j < shape1 p)%nat → (c < 4)%nat →
  (offset p i j c < length (data p))%nat.
Proof. unfold offset. intros ->. nia. Qed.

Lemma offset_inj p i j c i' j' c' :
  (j < shape1 p)%nat → (j' < shape1 p)%nat → (c < 4)%nat → (c' < 4)%nat →
  offset p i j c = offset p i' j' c' → i = i' ∧ j = j' ∧ c = c'.
Proof.
  unfold offset. intros Hj Hj' Hc Hc' H.
  assert (i = i') as -> by nia.
  assert (j = j') as -> by nia.
  repeat split; lia.
Qed.

Lemma sameShape_refl p : sameShape p p.
Proof. by unfold sameShape. Qed.

Lemma sameShape_set p q i j c v : sameShape p q → sameShape p (set q i j c v).
Proof.
  unfold sameShape, set. simpl. intros (? & ? & ?).
  by rewrite length_insert.
Qed.

Lemma get_set_eq p i j c v :
  (offset p i j c < length (data p))%nat →
  get (set p i j c v) i j c = JS.ToUint8 v.
Proof.
  intros Hlt. unfold get, set, offset in *. simpl.
  by rewrite list_lookup_insert_eq.
Qed.

Lemma get_set_ne p i j c v i' j' c' :
  offset p i j c ≠ offset p i' j' c' →
  get (set p i j c v) i' j' c' = get p i' j' c'.
Proof.
  intros Hne. unfold get, set, offset in *. simpl.
  by rewrite list_lookup_insert_ne.
Qed.

Lemma get_set_channel p i j c v c' :
  (j < shape1 p)%nat → (c < 4)%nat → (c' < 4)%nat → c ≠ c' →
  get (set p i j c v) i j c' = get p i j c'.
Proof.
  intros Hj Hc Hc' Hne. apply get_set_ne. intros Heq.
  destruct (offset_inj _ _ _ _ _ _ _ Hj Hj Hc Hc' Heq) as (_ & _ & ?). done.
Qed.

Lemma get_set_pixel p i j c v i' j' c' :
  (i, j) ≠ (i', j') →
  (j < shape1 p)%nat → (j' < shape1 p)%nat → (c < 4)%nat → (c' < 4)%nat →
  get (set p i j c v) i' j' c' = get p i' j' c'.
Proof.
  intros Hne Hj Hj' Hc Hc'. apply get_set_ne. intros Heq.
  destruct (offset_inj _ _ _ _ _ _ _ Hj Hj' Hc Hc' Heq) as (? & ? & _). congruence.
Qed.

Lemma elem_of_coordinates n0 n1 i j :
  (i, j) ∈ coordinates n0 n1 ↔ (i < n0)%nat ∧ (j < n1)%nat.
Proof.
  unfold coordinates. rewrite list_elem_of_bind. split.
  - intros (i' & Hin & Hi'). apply list_elem_of_fmap in Hin as (j' & [= -> ->] & Hj').
    apply elem_of_seq in Hi', Hj'. lia.
  - intros [Hi Hj]. exists i. split.
    + apply list_elem_of_fmap. exists j. split; [done|]. apply elem_of_seq. lia.
    + apply elem_of_seq. lia.
Qed.

Lemma NoDup_coordinates n0 n1 : NoDup (coordinates n0 n1).
Proof.
  unfold coordinates. apply NoDup_bind.
  - intros i1 i2 [i j] _ _ H1 H2.
    apply list_elem_of_fmap in H1 as (? & [= -> ->] & _).
    by apply list_elem_of_fmap in H2 as (? & [= -> ->] & _).
  - intros i _. apply NoDup_fmap_2; [|apply NoDup_seq]. by intros ?? [= ->].
  - apply NoDup_seq.
Qed.

(** A rewrite function that touches only the pixel it is called on, and
    computes it from that pixel alone, rewrites every pixel independently. *)
Section Recoder.
Variable fn : PixelBuffer → nat → nat → PixelBuffer.
Variable F : list Z → nat → Z.
Variable p : PixelBuffer.

Hypothesis fn_shape : ∀ q i j, sameShape p q → sameShape p (fn q i j).
Hypothesis fn_here : ∀ q i j c,
  sameShape p q → (i < shape0 p)%nat → (j < shape1 p)%nat → (c < 4)%nat →
  get (fn q i j) i j c = F (pixelAt q i j) c.
Hypothesis fn_elsewhere : ∀ q i j i' j' c',
  sameShape p q → (i, j) ≠ (i', j') →
  (j < shape1 p)%nat → (j' < shape1 p)%nat → (c' < 4)%nat →
  get (fn q i j) i' j' c' = get q i' j' c'.

Lemma foldl_fn_shape l q :
  sameShape p q → sameShape p (foldl (λ p ij, fn p ij.1 ij.2) q l).
Proof. revert q. induction l as [|[i j] l IH]; simpl; auto. Qed.

Lemma foldl_fn_get l : ∀ q i' j' c',
  NoDup l → sameShape p q →
  (∀ i j, (i, j) ∈ l → (i < shape0 p)%nat ∧ (j < shape1 p)%nat) →
  (j' < shape1 p)%nat → (c' < 4)%nat →
  get (foldl (λ p ij, fn p ij.1 ij.2) q l) i' j' c' =
    if decide ((i', j') ∈ l) then F (pixelAt q i' j') c' else get q i' j' c'.
Proof.
  induction l as [|[i j] l IH]; intros q i' j' c' Hnd Hq Hl Hj' Hc'; cbn [foldl].
  { rewrite decide_False; [done|]. apply not_elem_of_nil. }
  apply NoDup_cons in Hnd as [Hnotin Hnd].
  destruct (Hl i j) as [Hi Hj]; [left|].
  rewrite IH; [|done|by apply fn_shape|by intros; apply Hl; right|done..].
  destruct (decide ((i', j') = (i, j))) as [[= -> ->]|Hne].
  - rewrite (decide_False (P := _ ∈ l)); [|done].
    rewrite decide_True; [|left]. by apply fn_here.
  - assert (∀ c, (c < 4)%nat → get (fn q i j) i' j' c = get q i' j' c) as Hsame.
    { intros c Hc. by apply fn_elsewhere. }
    destruct (decide ((i', j') ∈ l)) as [Hin|Hnin].
    + rewrite decide_True; [|by right].
      unfold pixelAt. rewrite !Hsame; [done|lia..].
    + rewrite decide_False; [by apply Hsame|].
      by intros [?|?]%elem_of_cons.
Qed.

Lemma rewritePixels_shape : sameShape p (rewritePixels fn p).
Proof. apply foldl_fn_shape, sameShape_refl. Qed.

Lemma rewritePixels_get i j c :
  (i < shape0 p)%nat → (j < shape1 p)%nat → (c < 4)%nat →
  get (rewritePixels fn p) i j c = F (pixelAt p i j) c.
Proof.
  intros Hi Hj Hc. unfold rewritePixels.
  rewrite foldl_fn_get; [|apply NoDup_coordinates|apply sameShape_refl| |done..].
  - rewrite decide_True; [done|]. by apply elem_of_coordinates.
  - intros ??. by rewrite elem_of_coordinates.
Qed.
End Recoder.

Lemma length_data_set p i j c v : length (data (set p i j c v)) = length (data p).
Proof. unfold set. simpl. apply length_insert. Qed.

Lemma sameShape_offset_lt p q i j c :
  length (data p) = (shape0 p * shape1 p * 4)%nat → sameShape p q →
  (i < shape0 p)%nat → (j < shape1 p)%nat → (c < 4)%nat →
  (offset q i j c < length (data q))%nat.
Proof.
  intros Hlen (H0 & H1 & Hl) Hi Hj Hc. apply offset_lt; [|lia..].
  rewrite Hl, H0, H1. done.
Qed.

Lemma ToUint8_0 : JS.ToUint8 0%float = 0.
Proof. reflexivity. Qed.

Lemma ToUint8_255 : JS.ToUint8 255%float = 255.
Proof. reflexivity. Qed.

(** The specular texture: channel 3 becomes 255, the others are kept. *)
Lemma rewritePixels_removeGlossiness p i j c :
  length (data p) = (shape0 p * shape1 p * 4)%nat →
  (i < shape0 p)%nat → (j < shape1 p)%nat → (c < 4)%nat →
  get (rewritePixels removeGlossiness p) i j c =
    if decide (c = 3%nat) then 255 else get p i j c.
Proof.
  intros Hlen Hi Hj Hc.
  rewrite (rewritePixels_get removeGlossiness
             (λ px c, if decide (c = 3%nat) then 255 else default 0 (px !! c)));
    [| | | |done..].
  - case_decide; [done|]. unfold pixelAt.
    by destruct c as [|[|[|[|?]]]]; try lia.
  - clear. intros q i j Hq. by apply sameShape_set.
  - clear i j c Hi Hj Hc. intros q i j c Hq Hi Hj Hc. unfold removeGlossiness.
    assert (shape1 q = shape1 p) as Hs by apply Hq.
    case_decide as Hc3.
    + subst c. rewrite get_set_eq; [apply ToUint8_255|].
      by apply (sameShape_offset_lt p).
    + rewrite get_set_channel; [|lia..|done].
      unfold pixelAt. by destruct c as [|[|[|[|?]]]]; try lia.
  - clear. intros q i j i' j' c' Hq Hne Hj Hj' Hc'. unfold removeGlossiness.
    assert (shape1 q = shape1 p) as Hs by apply Hq.
    apply get_set_pixel; [done|lia..].
Qed.

(** The metallic-roughness texture: channels 0 and 2 are 0, channel 3 is
    255, and channel 1 holds the inverted glossiness read from channel 3. *)
Lemma rewritePixels_invertGlossiness gf p i j c :
  length (data p) = (shape0 p * shape1 p * 4)%nat →
  (i < shape0 p)%nat → (j < shape1 p)%nat → (c < 4)%nat →
  get (rewritePixels (invertGlossiness gf) p) i j c =
    match c with
    | 0%nat => 0
    | 1%nat => JS.ToUint8 (255 - JS.Math_round (JS.of_byte (get p i j 3) * gf))%float
    | 2%nat => 0
    | _ => 255
    end.
Proof.
  intros Hlen Hi Hj Hc.
  rewrite (rewritePixels_get (invertGlossiness gf)
             (λ px c, match c with
                      | 0%nat => 0
                      | 1%nat => JS.ToUint8 (255 - JS.Math_round
                                   (JS.of_byte (default 0%Z (px !! 3%nat)) * gf))%float
                      | 2%nat => 0
                      | _ => 255
                      end));
    [done| | | |done..].
  - clear. intros q i j Hq. unfold invertGlossiness. by repeat apply sameShape_set.
  - clear i j c Hi Hj Hc. intros q i j c Hq Hi Hj Hc. unfold invertGlossiness. cbv zeta.
    assert (shape1 q = shape1 p) as Hs by apply Hq.
    assert (∀ c, (c < 4)%nat → (offset q i j c < length (data q))%nat) as Hoff.
    { intros. by apply (sameShape_offset_lt p). }
    destruct c as [|[|[|[|?]]]]; try lia.
    + do 3 (rewrite get_set_channel; [|unfold set; simpl; lia..]).
      rewrite get_set_eq; [apply ToUint8_0|by apply Hoff].
    + do 2 (rewrite get_set_channel; [|unfold set; simpl; lia..]).
      rewrite get_set_eq; [done|].
      rewrite length_data_set. by apply Hoff.
    + rewrite get_set_channel; [|unfold set; simpl; lia..].
      rewrite get_set_eq; [apply ToUint8_0|].
      rewrite !length_data_set. by apply Hoff.
    + rewrite get_set_eq; [apply ToUint8_255|].
      rewrite !length_data_set. by apply Hoff.
  - clear. intros q i j i' j' c' Hq Hne Hj Hj' Hc'. unfold invertGlossiness. cbv zeta.
    assert (shape1 q = shape1 p) as Hs by apply Hq.
    rewrite !get_set_pixel; [done|try done; unfold set; simpl; lia..].
Qed.

(** ** Binary64 arithmetic of the roughness channel *)

Lemma digits2_pos_bounds m :
  2 ^ (Z.pos (digits2_pos m) - 1) <= Z.pos m < 2 ^ Z.pos (digits2_pos m).
Proof.
  induction m as [m IH|m IH|]; simpl digits2_pos.
  - rewrite Pos2Z.inj_succ, Pos2Z.inj_xI.
    replace (Z.succ (Z.pos (digits2_pos m)) - 1) with (Z.succ (Z.pos (digits2_pos m) - 1)) by lia.
    rewrite !Z.pow_succ_r by lia.
    revert IH. generalize (2 ^ (Z.pos (digits2_pos m) - 1)) (2 ^ Z.pos (digits2_pos m)).
    intros a b [H1 H2]. split; lia.
  - rewrite Pos2Z.inj_succ. change (Z.pos m~0) with (2 * Z.pos m).
    replace (Z.succ (Z.pos (digits2_pos m)) - 1) with (Z.succ (Z.pos (digits2_pos m) - 1)) by lia.
    rewrite !Z.pow_succ_r by lia.
    revert IH. generalize (2 ^ (Z.pos (digits2_pos m) - 1)) (2 ^ Z.pos (digits2_pos m)).
    intros a b [H1 H2]. split; lia.
  - simpl. lia.
Qed.

Lemma Zdigits2_le m d : 0 <= d → 0 <= m < 2 ^ d → Zdigits2 m <= d.
Proof.
  intros Hd [Hm0 Hm]. destruct m as [|m|m]; simpl; [lia| |lia].
  pose proof (digits2_pos_bounds m) as [Hlo _].
  assert (2 ^ (Z.pos (digits2_pos m) - 1) < 2 ^ d) as Hlt by lia.
  apply Z.pow_lt_mono_r_iff in Hlt; lia.
Qed.

Lemma iter_pos_invariant {A} (f : A → A) (P : Z → A → Prop) :
  (∀ k x, 0 <= k → P k x → P (k + 1) (f x)) →
  ∀ n k x, 0 <= k → P k x → P (k + Z.pos n) (SpecFloat.iter_pos f n x).
Proof.
  intros Hstep. induction n as [n IH|n IH|]; intros k x Hk HP; simpl.
  - rewrite Pos2Z.inj_xI.
    replace (k + (2 * Z.pos n + 1)) with (k + 1 + Z.pos n + Z.pos n) by lia.
    apply IH; [lia|]. apply IH; [lia|]. by apply Hstep.
  - rewrite Pos2Z.inj_xO.
    replace (k + 2 * Z.pos n) with (k + Z.pos n + Z.pos n) by lia.
    apply IH; [lia|]. by apply IH.
  - by apply Hstep.
Qed.

Lemma shr_1_inv m0 k mrs : 0 <= k → shr_inv m0 k mrs → shr_inv m0 (k + 1) (shr_1 mrs).
Proof.
  intros Hk. destruct mrs as [m r s]. unfold shr_inv. simpl.
  rewrite Z.pow_add_r, Z.pow_1_r by lia.
  assert (0 < 2 ^ k) as Hpow by (apply Z.pow_pos_nonneg; lia).
  revert Hpow. generalize (2 ^ k). intros w Hw (Hm & Hle & Hlt).
  assert (r || s = true → m * w < m0) as Hrs.
  { intros Hrs. apply Hlt. by destruct r, s. }
  clear Hlt.
  destruct m as [|[p|p|]|p]; simpl; try lia.
  - split; [lia|]. split; [lia|]. intros Hloc.
    destruct r, s; simpl in *; try done; lia.
  - split; [lia|]. split; [lia|]. intros Hloc.
    destruct r, s; simpl in *; try done; lia.
Qed.

Lemma shr_fexp_bound A m e mrs e' :
  0 <= A < 256 → 0 <= m → e <= 0 → m <= A * 2 ^ (- e) →
  shr_fexp prec emax m e loc_Exact = (mrs, e') →
  (e' = e ∨ e' <= -45) ∧ e <= e' ∧ shr_inv m (e' - e) mrs.
Proof.
  intros HA Hm He Hle. unfold shr_fexp, shr. simpl shr_record_of_loc.
  assert (shr_inv m 0 (Build_shr_record m false false)) as Hinv0.
  { unfold shr_inv. simpl. split; [done|]. split; [lia|done]. }
  destruct (fexp prec emax (Zdigits2 m + e) - e) as [|n|n] eqn:Hn; intros [= <- <-].
  - rewrite Z.sub_diag. split; [by left|]. done.
  - replace (e + Z.pos n - e) with (0 + Z.pos n) by lia.
    split; [|split; [lia|]].
    + right. assert (Zdigits2 m <= 8 - e) as Hd.
      { apply Zdigits2_le; [lia|]. split; [done|].
        replace (8 - e) with (8 + - e) by lia. rewrite Z.pow_add_r by lia.
        assert (0 < 2 ^ (- e)) by (apply Z.pow_pos_nonneg; lia).
        change (2 ^ 8) with 256. nia. }
      unfold fexp, emin, prec, emax in Hn. lia.
    + apply iter_pos_invariant; [|done|done]. intros k x Hk. by apply shr_1_inv.
  - rewrite Z.sub_diag. split; [by left|]. done.
Qed.

Lemma round_nearest_even_bound m l :
  m <= round_nearest_even m l <= m + 1 ∧
  (l = loc_Exact → round_nearest_even m l = m).
Proof. destruct l as [|[]]; simpl; try destruct (Z.even m); split; done || lia. Qed.

Lemma pow2_split a b : 0 <= a → 0 <= b → 2 ^ (a + b) = 2 ^ a * 2 ^ b ∧ 0 < 2 ^ a ∧ 0 < 2 ^ b.
Proof.
  intros. rewrite Z.pow_add_r by lia.
  split; [done|]. split; apply Z.pow_pos_nonneg; lia.
Qed.

Lemma binary_round_aux_bound A M E :
  0 <= A < 256 → E < 0 → Z.pos M <= A * 2 ^ (- E) →
  match binary_round_aux prec emax false (Z.pos M) E loc_Exact with
  | S754_zero false => True
  | S754_finite false m e => e < 0 ∧ Z.pos m <= A * 2 ^ (- e)
  | _ => False
  end.
Proof.
  intros HA HE HM. unfold binary_round_aux.
  destruct (shr_fexp prec emax (Z.pos M) E loc_Exact) as [mrs1 e1] eqn:H1.
  apply (shr_fexp_bound A) in H1 as (He1 & HEe1 & Hm1 & Hle1 & Hlt1); [|lia..].
  pose proof (round_nearest_even_bound (shr_m mrs1) (loc_of_shr_record mrs1)) as [Hr Hrx].
  set (m1 := round_nearest_even (shr_m mrs1) (loc_of_shr_record mrs1)) in *.
  assert (e1 < 0) as He1' by lia.
  assert (m1 <= A * 2 ^ (- e1)) as Hm1A.
  { destruct (pow2_split (- e1) (e1 - E)) as (Hsplit & HV & HW); [lia..|].
    replace (- e1 + (e1 - E)) with (- E) in Hsplit by lia.
    rewrite Hsplit in HM. revert HV HW HM Hle1 Hlt1.
    generalize (2 ^ (- e1)) (2 ^ (e1 - E)). intros V W HV HW HM Hle1 Hlt1.
    destruct (loc_of_shr_record mrs1) as [|c] eqn:Hloc.
    - rewrite Hrx by done. nia.
    - assert (shr_m mrs1 * W < Z.pos M) by (by apply Hlt1). nia. }
  destruct (shr_fexp prec emax m1 e1 loc_Exact) as [mrs2 e2] eqn:H2.
  apply (shr_fexp_bound A) in H2 as (He2 & He12 & Hm2 & Hle2 & _); [|lia..].
  assert (shr_m mrs2 <= A * 2 ^ (- e2)) as Hm2A.
  { destruct (pow2_split (- e2) (e2 - e1)) as (Hsplit & HV & HW); [lia..|].
    replace (- e2 + (e2 - e1)) with (- e1) in Hsplit by lia.
    rewrite Hsplit in Hm1A. revert HV HW Hm1A Hle2.
    generalize (2 ^ (- e2)) (2 ^ (e2 - e1)). intros V W HV HW Hm1A Hle2. nia. }
  destruct (shr_m mrs2) as [|m2|m2]; [done| |lia].
  assert ((e2 <=? emax - prec) = true) as -> by (unfold emax, prec; lia).
  split; [lia|done].
Qed.

Lemma byte_cases (P : Z → bool) a :
  forallb P (Z.of_nat <$> seq 0 256) = true → 0 <= a <= 255 → P a = true.
Proof.
  intros Hall Ha. rewrite forallb_forall in Hall. apply Hall.
  apply list_elem_of_In, list_elem_of_fmap. exists (Z.to_nat a).
  split; [lia|]. apply elem_of_seq. lia.
Qed.

Lemma Prim2SF_of_byte a :
  0 <= a <= 255 →
  match Prim2SF (JS.of_byte a) with
  | S754_zero false => a = 0
  | S754_finite false m e => e <= 0 ∧ Z.pos m = a * 2 ^ (- e)
  | _ => False
  end.
Proof.
  intros Ha.
  pose proof (byte_cases
    (λ a, match Prim2SF (JS.of_byte a) with
          | S754_zero false => a =? 0
          | S754_finite false m e => (e <=? 0) && (Z.pos m =? a * 2 ^ (- e))
          | _ => false
          end) a) as Hcases.
  cbv beta in Hcases. specialize (Hcases ltac:(vm_compute; reflexivity) Ha).
  destruct (Prim2SF (JS.of_byte a)) as [[]|[]| |[] m e]; try done.
  - by apply Z.eqb_eq.
  - apply andb_prop in Hcases as [?%Z.leb_le ?%Z.eqb_eq]. done.
Qed.

Lemma Prim2SF_unit_interval g :
  (0 <=? g)%float = true → (g <=? 1)%float = true →
  match Prim2SF g with
  | S754_zero _ => True
  | S754_finite false m e => e < 0 ∧ Z.pos m <= 2 ^ (- e)
  | _ => False
  end.
Proof.
  rewrite !FloatAxioms.leb_spec. pose proof (Prim2SF_valid g) as Hvalid.
  replace (Prim2SF 0) with (S754_zero false) by (vm_compute; reflexivity).
  replace (Prim2SF 1) with (S754_finite false 4503599627370496 (-52))
    by (vm_compute; reflexivity).
  destruct (Prim2SF g) as [s|s| |s m e].
  - intros _ _. exact I.
  - destruct s; intros H0 H1; [discriminate H0|discriminate H1].
  - intros H0 _. discriminate H0.
  - destruct s; intros H0 H1; [discriminate H0|]. clear H0.
    unfold SFleb, SFcompare in H1.
    cbn [valid_binary bounded] in Hvalid.
    apply andb_prop in Hvalid as [Hcanon _].
    unfold canonical_mantissa, fexp, SpecFloat.emin, prec, emax in Hcanon.
    apply Z.eqb_eq in Hcanon.
    pose proof (digits2_pos_bounds m) as [_ Hm].
    assert (Z.pos (digits2_pos m) <= 53) as Hd by lia.
    assert (2 ^ Z.pos (digits2_pos m) <= 2 ^ 53) as Hp53
      by (apply Z.pow_le_mono_r; lia).
    destruct (Z.compare_spec e (-52)) as [->|Hlt|Hgt].
    + replace (2 ^ (- -52)) with 4503599627370496 by (vm_compute; reflexivity).
      pose proof (Pos.compare_spec m 4503599627370496) as Hc.
      unfold Pos.compare in Hc.
      destruct Hc as [Heq|Hlt|Hgt].
      * clear -Heq. split; lia.
      * apply Pos2Z.pos_lt_pos in Hlt. clear -Hlt. split; lia.
      * discriminate H1.
    + split; [lia|].
      assert (2 ^ 53 <= 2 ^ (- e)) as Hp by (apply Z.pow_le_mono_r; lia).
      clear -Hm Hp53 Hp. lia.
    + discriminate H1.
Qed.

Lemma Prim2SF_scaled_byte a g :
  0 <= a <= 255 → (0 <=? g)%float = true → (g <=? 1)%float = true →
  match Prim2SF (JS.of_byte a * g) with
  | S754_zero _ => True
  | S754_finite false m e => e < 0 ∧ Z.pos m <= a * 2 ^ (- e)
  | _ => False
  end.
Proof.
  intros Ha Hg0 Hg1. rewrite FloatAxioms.mul_spec. unfold SF64mul.
  pose proof (Prim2SF_of_byte a Ha) as Hsa.
  pose proof (Prim2SF_unit_interval g Hg0 Hg1) as Hsg.
  destruct (Prim2SF (JS.of_byte a)) as [[]|[]| |[] ma ea]; try contradiction;
    destruct (Prim2SF g) as [sg|sg| |[] mg eg]; try contradiction;
    cbn [SFmul xorb]; try exact I.
  destruct Hsa as [Hea Hma], Hsg as [Heg Hmg].
  assert (Z.pos (ma * mg) <= a * 2 ^ (- (ea + eg))) as Hprod.
  { rewrite Pos2Z.inj_mul, Hma.
    replace (- (ea + eg)) with (- ea + - eg) by lia.
    rewrite Z.pow_add_r by lia.
    assert (0 < 2 ^ (- ea)) as Hpos by (apply Z.pow_pos_nonneg; lia).
    rewrite <- Z.mul_assoc. apply Z.mul_le_mono_nonneg_l; [lia|].
    apply Z.mul_le_mono_nonneg_l; [lia|done]. }
  pose proof (binary_round_aux_bound a (ma * mg) (ea + eg)
                ltac:(lia) ltac:(lia) Hprod) as Hb.
  destruct (binary_round_aux prec emax false (Z.pos (ma * mg)) (ea + eg) loc_Exact)
    as [[]|[]| |[] m e]; try contradiction; try exact I; exact Hb.
Qed.

Lemma round_half_up_bound A m e :
  0 <= A → e < 0 → Z.pos m <= A * 2 ^ (- e) →
  0 <= JS.round_half_up false m e <= A.
Proof.
  intros HA He Hm. unfold JS.round_half_up. cbn [cond_Zopp].
  rewrite Z.shiftr_div_pow2 by lia.
  replace (- e + 1) with (Z.succ (- e)) by lia. rewrite Z.pow_succ_r by lia.
  assert (0 < 2 ^ (- e)) as Hpos by (apply Z.pow_pos_nonneg; lia).
  revert Hpos Hm. generalize (2 ^ (- e)). intros w Hw Hm. split.
  - apply Z.div_pos; lia.
  - apply Z.lt_succ_r, Z.div_lt_upper_bound; nia.
Qed.

Lemma Math_round_scaled_byte a g :
  0 <= a <= 255 → (0 <=? g)%float = true → (g <=? 1)%float = true →
  JS.Math_round (JS.of_byte a * g) = neg_zero ∨
  ∃ n, 0 <= n <= a ∧ JS.Math_round (JS.of_byte a * g) = JS.of_Z n.
Proof.
  intros Ha Hg0 Hg1.
  pose proof (Prim2SF_scaled_byte a g Ha Hg0 Hg1) as Hsf.
  unfold JS.Math_round.
  destruct (Prim2SF (JS.of_byte a * g)%float) as [s|s| |s m e] eqn:Hp;
    try contradiction.
  - rewrite <- (SF2Prim_Prim2SF (JS.of_byte a * g)%float), Hp.
    destruct s; [by left|]. right. exists 0. split; [lia|reflexivity].
  - destruct s; [contradiction|]. destruct Hsf as [He Hm].
    assert ((0 <=? e) = false) as -> by lia.
    pose proof (round_half_up_bound a m e ltac:(lia) He Hm) as Hn.
    right. destruct (Z.eqb_spec (JS.round_half_up false m e) 0) as [Heq|Hne].
    + exists 0. split; [lia|reflexivity].
    + by exists (JS.round_half_up false m e).
Qed.

Lemma inverted_byte n :
  0 <= n <= 255 →
  JS.ToUint8 (255 - JS.of_Z n) = 255 - n ∧
  JS.of_byte (255 - n) = (255 - JS.of_Z n)%float.
Proof.
  intros Hn.
  pose proof (byte_cases
    (λ n, (JS.ToUint8 (255 - JS.of_Z n) =? 255 - n) &&
          PrimFloat.Leibniz.eqb (JS.of_byte (255 - n)) (255 - JS.of_Z n)) n) as Hcases.
  cbv beta in Hcases. specialize (Hcases ltac:(vm_compute; reflexivity) Hn).
  apply andb_prop in Hcases as [H1%Z.eqb_eq H2%FloatAxioms.Leibniz.eqb_spec].
  done.
Qed.

(** With a glossiness factor in [0, 1], the roughness written to channel 1
    is a byte: storing it in the buffer and reading it back gives the number
    that was computed. *)
Lemma roughness_is_byte a g :
  0 <= a <= 255 → (0 <=? g)%float = true → (g <=? 1)%float = true →
  0 <= JS.ToUint8 (255 - JS.Math_round (JS.of_byte a * g)) <= 255 ∧
  JS.of_byte (JS.ToUint8 (255 - JS.Math_round (JS.of_byte a * g))) =
    (255 - JS.Math_round (JS.of_byte a * g))%float.
Proof.
  intros Ha Hg0 Hg1.
  destruct (Math_round_scaled_byte a g Ha Hg0 Hg1) as [->|(n & Hn & ->)].
  - split; [by vm_compute|reflexivity].
  - destruct (inverted_byte n ltac:(lia)) as [-> ->]. split; [lia|done].
Qed.

(** ** The loop over the materials *)

Lemma bind_Ok {A B} (r : result A) (f : A → result B) b :
  r ≫= f = Ok b → ∃ a, r = Ok a ∧ f a = Ok b.
Proof. destruct r as [a|e]; simpl; [eauto|done]. Qed.

Lemma graph_le_refl g : graph_le g g.
Proof. by unfold graph_le. Qed.

Lemma graph_le_trans g1 g2 g3 : graph_le g1 g2 → graph_le g2 g3 → graph_le g1 g3.
Proof.
  unfold graph_le. intros (? & ? & ? & ?) (? & ? & ? & ?).
  repeat split; try (etrans; done); congruence.
Qed.

Lemma fresh_lookup_None {A} (m : gmap nat A) : m !! fresh (dom m) = None.
Proof. apply not_elem_of_dom, is_fresh. Qed.

Lemma convertMaterial_skip m g inp :
  getSpecGloss m g = None → convertMaterial m g inp = Ok (m, g, inp).
Proof. unfold convertMaterial. by intros ->. Qed.

Lemma lookup_insert_fresh {A} (m : gmap nat A) (i : nat) (x y : A) :
  m !! i = Some x → <[fresh (dom m) := y]> m !! i = Some x.
Proof.
  intros Hi. rewrite lookup_insert_ne; [done|].
  intros Heq. pose proof (fresh_lookup_None m) as Hf. congruence.
Qed.

Lemma convertMaterial_converted m g inp sg :
  getSpecGloss m g = Some sg →
  (∀ l, specularGlossinessTexture sg = Some l → is_Some (textures g !! texture l)) →
  ∃ m' g', convertMaterial m g inp = Ok (m', g', stashTextures sg m inp) ∧
           converted sg m g m' g'.
Proof.
  intros Hsg Htex. unfold convertMaterial. rewrite Hsg.
  unfold createSpecular, setUpMetalRough, createIOR, moveSpecularGlossiness, moveDiffuse.
  cbv zeta. simpl.
  destruct (specularGlossinessTexture sg) as [l|] eqn:Hl.
  - destruct (Htex l eq_refl) as [src Hsrc].
    unfold createTexture, rewriteTexture. simpl.
    rewrite (lookup_insert_fresh _ _ _ _ Hsrc). simpl.
    rewrite insert_insert_eq.
    set (t1 := fresh (dom (textures g))).
    set (ts1 := <[t1 := _]> (textures g)).
    assert (ts1 !! texture l = Some src) as Hsrc1.
    { subst ts1. rewrite lookup_insert_ne; [done|].
      intros Heq. pose proof (fresh_lookup_None (textures g)) as Hf.
      fold t1 in Hf. congruence. }
    rewrite (lookup_insert_fresh _ _ _ _ Hsrc1). simpl.
    rewrite insert_insert_eq.
    set (t2 := fresh (dom ts1)).
    assert (textures g !! t1 = None) as Ht1 by apply fresh_lookup_None.
    assert (ts1 !! t2 = None) as Ht2 by apply fresh_lookup_None.
    eexists _, _. split.
    { unfold stashTextures. rewrite Hl. reflexivity. }
    unfold converted. rewrite Hl. cbv zeta.
    unfold onSpecular, setIOR. simpl. rewrite !alter_insert_eq. simpl.
    split_and!; try done; try (by destruct (diffuseTexture sg) as [[]|]).
    exists src, t1, t2. subst ts1. apply lookup_insert_None in Ht2 as [Ht2 Hne].
    split_and!; try done; by destruct (diffuseTexture sg) as [[]|].
  - eexists _, _. split.
    { unfold stashTextures. rewrite Hl. reflexivity. }
    unfold converted. rewrite Hl. cbv zeta.
    unfold onSpecular, setIOR. simpl. rewrite !alter_insert_eq. simpl.
    split_and!; try done.
    all: by destruct (diffuseTexture sg) as [[]|].
Qed.

Lemma convertMaterial_le m g inp m' g' inp' :
  convertMaterial m g inp = Ok (m', g', inp') → graph_le g g'.
Proof.
  unfold convertMaterial.
  destruct (getSpecGloss m g) as [sg|]; [|intros [= <- <- <-]; apply graph_le_refl].
  unfold createSpecular, setUpMetalRough, createIOR, moveSpecularGlossiness.
  cbv zeta. simpl.
  destruct (specularGlossinessTexture sg) as [l|];
    unfold createTexture, rewriteTexture; simpl.
  - destruct (_ !! texture l) as [src1|] eqn:H1; simpl; [|done].
    rewrite !(insert_insert_eq (textures g)).
    match goal with
    | |- context [match ?x with Some _ => _ | None => _ end ≫= _] =>
        destruct x as [src2|] eqn:H2; simpl; [|done]
    end.
    rewrite insert_insert_eq. intros [= <- <- <-].
    unfold graph_le, onSpecular, setIOR. simpl. rewrite !alter_insert_eq.
    split_and!; [|done|apply insert_subseteq, fresh_lookup_None..].
    etrans; apply insert_subseteq, fresh_lookup_None.
  - intros [= <- <- <-].
    unfold graph_le, onSpecular, setIOR. simpl. rewrite !alter_insert_eq.
    split_and!; [done|done|apply insert_subseteq, fresh_lookup_None..].
Qed.

Lemma convertMaterials_le ms : ∀ g inp ms' g' inp',
  convertMaterials ms g inp = Ok (ms', g', inp') → graph_le g g'.
Proof.
  induction ms as [|m ms IH]; intros g inp ms' g' inp'; simpl.
  - intros [= <- <- <-]. apply graph_le_refl.
  - intros ([[m1 g1] inp1] & Hm & Hrest)%bind_Ok.
    apply bind_Ok in Hrest as ([[ms2 g2] inp2] & Hms & [= <- <- <-]).
    eapply graph_le_trans; [by eapply convertMaterial_le|by eapply IH].
Qed.


(** Every material is converted once, in a graph that extends the initial
    one and is extended by the final one. *)
Lemma convertMaterials_lookup ms : ∀ g inp ms' g' inp' i m,
  convertMaterials ms g inp = Ok (ms', g', inp') → ms !! i = Some m →
  ∃ gi inpi m' gi' inpi',
    graph_le g gi ∧ convertMaterial m gi inpi = Ok (m', gi', inpi') ∧
    graph_le gi' g' ∧ ms' !! i = Some m'.
Proof.
  induction ms as [|m0 ms IH]; intros g inp ms' g' inp' i m; simpl; [done|].
  intros ([[m1 g1] inp1] & Hm & Hrest)%bind_Ok Hi.
  apply bind_Ok in Hrest as ([[ms2 g2] inp2] & Hms & [= <- <- <-]).
  destruct i as [|i]; simpl in *.
  - injection Hi as ->. exists g, inp, m1, g1, inp1.
    split_and!; [apply graph_le_refl|done|by eapply convertMaterials_le|done].
  - destruct (IH _ _ _ _ _ _ _ Hms Hi) as (gi & inpi & m' & gi' & inpi' & ? & ? & ? & ?).
    exists gi, inpi, m', gi', inpi'. split_and!; try done.
    eapply graph_le_trans; [by eapply convertMaterial_le|done].
Qed.

Lemma graph_le_getSpecGloss g g' m : graph_le g g' → getSpecGloss m g' = getSpecGloss m g.
Proof. intros (_ & Heq & _). unfold getSpecGloss. by rewrite Heq. Qed.


(** ** Parents and disposal *)

Lemma unlink_not_linked t l : linksTo t l = false → unlink t l = l.
Proof. unfold unlink. by intros ->. Qed.

Lemma linkParent_nil t p l : linkParent t p l = [] → linksTo t l = false.
Proof. unfold linkParent. by destruct (linksTo t l). Qed.

Lemma join_imap_nil {A B} (f : nat → A → list B) (l : list A) :
  mjoin (imap f l) = [] → ∀ i x, l !! i = Some x → f i x = [].
Proof.
  revert f. induction l as [|y l IH]; intros f Hnil i x Hi; [done|].
  rewrite imap_cons in Hnil. simpl in Hnil.
  apply app_eq_nil in Hnil as [Hy Hl].
  destruct i as [|i]; simpl in Hi.
  - by injection Hi as ->.
  - by apply (IH (f ∘ S) Hl i x).
Qed.

Lemma bind_nil_elem {A B} (f : A → list B) (l : list A) x :
  l ≫= f = [] → x ∈ l → f x = [].
Proof.
  intros Hnil Hx. destruct (f x) as [|b bs] eqn:Hfx; [done|].
  assert (b ∈ l ≫= f) as Hb.
  { apply list_elem_of_bind. exists x. split; [|done]. rewrite Hfx. by left. }
  rewrite Hnil in Hb. by apply elem_of_nil in Hb.
Qed.

(** A texture with exactly one parent is held by the root alone. *)
Lemma listParents_one doc t :
  length (listParents doc t) = 1%nat →
  is_Some (textures (graph doc) !! t) ∧
  (∀ i m, materials doc !! i = Some m → unlinkMaterial t m = m) ∧
  (∀ id r, specGlossRecords (graph doc) !! id = Some r → unlinkSpecGloss t r = r) ∧
  (∀ id s, specularRecords (graph doc) !! id = Some s → unlinkSpecular t s = s).
Proof.
  unfold listParents. destruct (textures (graph doc) !! t) as [tx|]; [|done].
  simpl. intros [= Hlen]. apply length_zero_iff_nil in Hlen.
  apply app_eq_nil in Hlen as [Hms Hlen]. apply app_eq_nil in Hlen as [Hsg Hsp].
  split; [by eexists|]. split_and!.
  - intros i m Hi. pose proof (join_imap_nil _ _ Hms i m Hi) as Hm.
    apply app_eq_nil in Hm as [Hb Hr].
    apply linkParent_nil in Hb, Hr. unfold unlinkMaterial.
    rewrite (unlink_not_linked _ _ Hb). simpl. rewrite (unlink_not_linked _ _ Hr).
    by destruct m.
  - intros id r Hr. apply elem_of_map_to_list in Hr.
    pose proof (bind_nil_elem _ _ _ Hsg Hr) as Hnil.
    apply app_eq_nil in Hnil as [Hd Hs]. simpl in Hd, Hs.
    apply linkParent_nil in Hd, Hs. unfold unlinkSpecGloss.
    rewrite (unlink_not_linked _ _ Hd), (unlink_not_linked _ _ Hs). by destruct r.
  - intros id s Hs. apply elem_of_map_to_list in Hs.
    pose proof (bind_nil_elem _ _ _ Hsp Hs) as Hnil.
    apply linkParent_nil in Hnil. simpl in Hnil. unfold unlinkSpecular.
    rewrite (unlink_not_linked _ _ Hnil). by destruct s.
Qed.

Lemma fmap_id_lookup {A} (f : A → A) (m : gmap nat A) :
  (∀ i x, m !! i = Some x → f x = x) → f <$> m = m.
Proof.
  intros Hf. apply map_eq. intros i. rewrite lookup_fmap.
  destruct (m !! i) as [x|] eqn:Hi; simpl; [|done]. by rewrite (Hf i x).
Qed.

Lemma list_fmap_id_lookup {A} (f : A → A) (l : list A) :
  (∀ i x, l !! i = Some x → f x = x) → f <$> l = l.
Proof.
  intros Hf. apply list_eq. intros i. rewrite list_lookup_fmap.
  destruct (l !! i) as [x|] eqn:Hi; simpl; [|done]. by rewrite (Hf i x).
Qed.

(** Disposing a texture that only the root holds changes no binding. *)
Lemma disposeTexture_unused doc t :
  length (listParents doc t) = 1%nat →
  disposeTexture t doc = withDocTextures (delete t (textures (graph doc))) doc.
Proof.
  intros (_ & Hms & Hsg & Hsp)%listParents_one.
  unfold disposeTexture, withDocTextures, withTextures.
  rewrite (list_fmap_id_lookup _ _ Hms), (fmap_id_lookup _ _ Hsg), (fmap_id_lookup _ _ Hsp).
  done.
Qed.

Lemma cleanUpTexture_textures doc tex :
  cleanUpTexture doc tex = withDocTextures (textures (graph (cleanUpTexture doc tex))) doc.
Proof.
  unfold cleanUpTexture. destruct tex as [t|]; [|by destruct doc as [? ? []]].
  destruct (Nat.eqb_spec (length (listParents doc t)) 1) as [Hone|_];
    [|by destruct doc as [? ? []]].
  by rewrite disposeTexture_unused.
Qed.

Lemma listParents_withDocTextures doc ts t :
  ts !! t = textures (graph doc) !! t →
  listParents (withDocTextures ts doc) t = listParents doc t.
Proof. unfold listParents. simpl. by intros ->. Qed.

Lemma listParents_absent doc t :
  textures (graph doc) !! t = None → listParents doc t = [].
Proof. unfold listParents. by intros ->. Qed.

Lemma withDocTextures_twice ts ts' doc :
  withDocTextures ts' (withDocTextures ts doc) = withDocTextures ts' doc.
Proof. done. Qed.

(** The clean-up pass changes nothing but the set of textures, and removes
    exactly the stashed textures that had one parent when the pass began. *)
Lemma cleanUp_spec inp : ∀ doc,
  cleanUp inp doc = withDocTextures (textures (graph (cleanUp inp doc))) doc ∧
  ∀ t, textures (graph (cleanUp inp doc)) !! t =
         if decide (Some t ∈ inp ∧ length (listParents doc t) = 1%nat)
         then None else textures (graph doc) !! t.
Proof.
  induction inp as [|o inp IH]; intros doc.
  { split; [by destruct doc as [? ? []]|]. intros t.
    rewrite decide_False; [done|]. intros [[]%elem_of_nil _]. }
  unfold cleanUp in *. cbn [foldl].
  destruct (IH (cleanUpTexture doc o)) as [Hdoc Hget].
  pose proof (cleanUpTexture_textures doc o) as Hstep.
  split.
  { rewrite Hdoc. rewrite Hstep at 2. by rewrite withDocTextures_twice. }
  intros t. rewrite Hget. clear Hdoc Hget IH.
  unfold cleanUpTexture in *.
  destruct o as [t0|].
  - destruct (Nat.eqb_spec (length (listParents doc t0)) 1) as [Hone|Hmany].
    + rewrite disposeTexture_unused by done.
      destruct (decide (t = t0)) as [->|Hne].
      * rewrite listParents_absent by apply lookup_delete_eq.
        rewrite decide_False by (simpl; lia).
        rewrite decide_True by (split; [left|done]).
        apply lookup_delete_eq.
      * rewrite listParents_withDocTextures by (by apply lookup_delete_ne).
        simpl. rewrite lookup_delete_ne by done.
        apply decide_ext. rewrite elem_of_cons. intuition congruence.
    + apply decide_ext. rewrite elem_of_cons. intuition congruence.
  - apply decide_ext. rewrite elem_of_cons. intuition congruence.
Qed.

(** ** The run as a whole *)

Lemma createExtension_materials name doc :
  materials (createExtension name doc) = materials doc ∧
  graph (createExtension name doc) = graph doc.
Proof. unfold createExtension. by case_bool_decide. Qed.

Lemma createExtension_declares name doc : name ∈ extensionsUsed (createExtension name doc).
Proof.
  unfold createExtension. case_bool_decide; [done|]. simpl.
  apply elem_of_app. right. by left.
Qed.

Lemma createExtension_keeps name name' doc :
  name' ∈ extensionsUsed doc → name' ∈ extensionsUsed (createExtension name doc).
Proof.
  unfold createExtension. case_bool_decide; [done|]. simpl.
  intros. apply elem_of_app. by left.
Qed.

Lemma createExtensions_materials doc :
  materials (createExtensions doc) = materials doc ∧
  graph (createExtensions doc) = graph doc.
Proof.
  unfold createExtensions.
  split; rewrite !(proj1 (createExtension_materials _ _)) ||
         rewrite !(proj2 (createExtension_materials _ _)); done.
Qed.

Lemma createExtensions_declares doc :
  KHR_materials_ior ∈ extensionsUsed (createExtensions doc) ∧
  KHR_materials_specular ∈ extensionsUsed (createExtensions doc).
Proof.
  unfold createExtensions. split.
  - do 2 apply createExtension_keeps. apply createExtension_declares.
  - apply createExtension_keeps. apply createExtension_declares.
Qed.

Lemma metalRough_undeclared doc :
  KHR_materials_pbrSpecularGlossiness ∉ extensionsUsed doc →
  metalRough doc = Ok (doc, [(LogWarn, notFoundMessage)]).
Proof. intros Hno. unfold metalRough. by rewrite bool_decide_eq_false_2. Qed.

Lemma metalRough_declared doc doc' log :
  KHR_materials_pbrSpecularGlossiness ∈ extensionsUsed doc →
  metalRough doc = Ok (doc', log) →
  ∃ ms g inp,
    convertMaterials (materials doc) (graph doc) [] = Ok (ms, g, inp) ∧
    doc' = finish (createExtensions doc) ms g inp ∧
    log = [(LogDebug, completeMessage)].
Proof.
  intros Hdecl. unfold metalRough. rewrite bool_decide_eq_true_2 by done.
  cbn [negb]. destruct (createExtensions_materials doc) as [-> ->].
  intros ([[ms g] inp] & Hloop & [= <- <-])%bind_Ok. by exists ms, g, inp.
Qed.

Lemma finish_spec doc ms g inp :
  finish (createExtensions doc) ms g inp =
    withDocTextures (textures (graph (finish (createExtensions doc) ms g inp)))
      (beforeCleanUp doc ms g) ∧
  ∀ t, textures (graph (finish (createExtensions doc) ms g inp)) !! t =
         if decide (Some t ∈ inp ∧ length (listParents (beforeCleanUp doc ms g) t) = 1%nat)
         then None else textures g !! t.
Proof. unfold finish. apply (cleanUp_spec inp (beforeCleanUp doc ms g)). Qed.

Lemma finish_fields doc ms g inp :
  let doc' := finish (createExtensions doc) ms g inp in
  extensionsUsed doc' =
    filter (λ name, name ≠ KHR_materials_pbrSpecularGlossiness)
      (extensionsUsed (createExtensions doc)) ∧
  materials doc' = setExtension KHR_materials_pbrSpecularGlossiness None <$> ms ∧
  specGlossRecords (graph doc') = ∅ ∧
  specularRecords (graph doc') = specularRecords g ∧
  iorRecords (graph doc') = iorRecords g.
Proof.
  intros doc'. destruct (finish_spec doc ms g inp) as [Heq _].
  fold doc' in Heq. by rewrite Heq.
Qed.

Lemma setExtension_None_absent name m :
  extensions m !! name = None → setExtension name None m = m.
Proof.
  intros Hno. unfold setExtension. rewrite delete_id by done. by destruct m.
Qed.

Lemma finish_not_declared doc ms g inp :
  KHR_materials_pbrSpecularGlossiness ∉
    extensionsUsed (finish (createExtensions doc) ms g inp).
Proof.
  destruct (finish_fields doc ms g inp) as (-> & _).
  rewrite list_elem_of_filter. by intros [? _].
Qed.

Lemma finish_keeps_declared doc ms g inp name :
  name ≠ KHR_materials_pbrSpecularGlossiness →
  name ∈ extensionsUsed (createExtensions doc) →
  name ∈ extensionsUsed (finish (createExtensions doc) ms g inp).
Proof.
  intros Hne Hin. destruct (finish_fields doc ms g inp) as (-> & _).
  by apply list_elem_of_filter.
Qed.

Lemma finish_material doc ms g inp i m :
  ms !! i = Some m →
  materials (finish (createExtensions doc) ms g inp) !! i =
    Some (setExtension KHR_materials_pbrSpecularGlossiness None m).
Proof.
  intros Hi. destruct (finish_fields doc ms g inp) as (_ & -> & _).
  by rewrite list_lookup_fmap, Hi.
Qed.

(** C6: a document that does not declare the spec/gloss extension is
    returned as it is, with a warning logged and no error. *)
Theorem metalRough_without_extension doc :
  KHR_materials_pbrSpecularGlossiness ∉ extensionsUsed doc →
  metalRough doc = Ok (doc, [(LogWarn, notFoundMessage)]).
Proof. apply metalRough_undeclared. Qed.

(** C7: a material that carries no spec/gloss record is the same material
    after the run. *)
Theorem material_without_specGloss_unchanged doc doc' log i m :
  metalRough doc = Ok (doc', log) →
  materials doc !! i = Some m →
  extensions m !! KHR_materials_pbrSpecularGlossiness = None →
  materials doc' !! i = Some m.
Proof.
  intros Hrun Hi Hno.
  destruct (decide (KHR_materials_pbrSpecularGlossiness ∈ extensionsUsed doc))
    as [Hdecl|Hundecl].
  - destruct (metalRough_declared _ _ _ Hdecl Hrun) as (ms & g & inp & Hloop & -> & _).
    destruct (convertMaterials_lookup _ _ _ _ _ _ _ _ Hloop Hi)
      as (gi & inpi & m' & gi' & inpi' & _ & Hm & _ & Hi').
    rewrite convertMaterial_skip in Hm by (unfold getSpecGloss; by rewrite Hno).
    injection Hm as <- _ _.
    rewrite (finish_material _ _ _ _ _ _ Hi'). by rewrite setExtension_None_absent.
  - rewrite metalRough_undeclared in Hrun by done. by injection Hrun as <- _.
Qed.

(** C3: after a run on a document that declared the spec/gloss extension, the
    document no longer declares it, its registry has no record left, and no
    material has a record attached under its name, whatever the number of
    materials that carried one. *)
Theorem specGloss_removed doc doc' log :
  metalRough doc = Ok (doc', log) →
  KHR_materials_pbrSpecularGlossiness ∈ extensionsUsed doc →
  (KHR_materials_pbrSpecularGlossiness ∉ extensionsUsed doc') ∧
  specGlossRecords (graph doc') = ∅ ∧
  ∀ m, m ∈ materials doc' →
       extensions m !! KHR_materials_pbrSpecularGlossiness = None ∧
       getSpecGloss m (graph doc') = None.
Proof.
  intros Hrun Hdecl.
  destruct (metalRough_declared _ _ _ Hdecl Hrun) as (ms & g & inp & Hloop & -> & _).
  split; [apply finish_not_declared|].
  destruct (finish_fields doc ms g inp) as (_ & Hms & Hsg & _).
  split; [done|]. intros m. rewrite Hms.
  intros (m0 & -> & _)%list_elem_of_fmap.
  assert (extensions (setExtension KHR_materials_pbrSpecularGlossiness None m0)
            !! KHR_materials_pbrSpecularGlossiness = None) as Hno
    by apply lookup_delete_eq.
  split; [done|]. unfold getSpecGloss. by rewrite Hno.
Qed.

(** C4: a second run on the outcome of a run finds the extension undeclared
    and returns that document unchanged. *)
Theorem metalRough_twice doc doc' log :
  metalRough doc = Ok (doc', log) →
  (KHR_materials_pbrSpecularGlossiness ∉ extensionsUsed doc') ∧
  metalRough doc' = Ok (doc', [(LogWarn, notFoundMessage)]).
Proof.
  intros Hrun.
  assert (KHR_materials_pbrSpecularGlossiness ∉ extensionsUsed doc') as Hno.
  { destruct (decide (KHR_materials_pbrSpecularGlossiness ∈ extensionsUsed doc))
      as [Hdecl|Hundecl].
    - destruct (metalRough_declared _ _ _ Hdecl Hrun) as (ms & g & inp & _ & -> & _).
      apply finish_not_declared.
    - rewrite metalRough_undeclared in Hrun by done. by injection Hrun as <- _. }
  split; [done|]. by apply metalRough_undeclared.
Qed.

(** C10: a run on a document that declares the spec/gloss extension declares
    the IOR and specular extensions before the loop over the materials, and
    the document still declares both when the run ends. *)
Theorem ior_and_specular_declared doc doc' log :
  metalRough doc = Ok (doc', log) →
  KHR_materials_pbrSpecularGlossiness ∈ extensionsUsed doc →
  ∃ ms g inp,
    KHR_materials_ior ∈ extensionsUsed (createExtensions doc) ∧
    KHR_materials_specular ∈ extensionsUsed (createExtensions doc) ∧
    convertMaterials (materials (createExtensions doc)) (graph (createExtensions doc)) []
      = Ok (ms, g, inp) ∧
    doc' = finish (createExtensions doc) ms g inp ∧
    KHR_materials_ior ∈ extensionsUsed doc' ∧
    KHR_materials_specular ∈ extensionsUsed doc'.
Proof.
  intros Hrun Hdecl.
  destruct (metalRough_declared _ _ _ Hdecl Hrun) as (ms & g & inp & Hloop & -> & _).
  destruct (createExtensions_declares doc) as [Hior Hspec].
  destruct (createExtensions_materials doc) as [Hms Hg].
  exists ms, g, inp. rewrite Hms, Hg.
  split_and!; try done; by apply finish_keeps_declared.
Qed.

(** A material that carries a record is converted by the run: the outcome
    [m'] of the loop body is the material of the final document. *)
Lemma metalRough_converts doc doc' log i m sg :
  metalRough doc = Ok (doc', log) →
  KHR_materials_pbrSpecularGlossiness ∈ extensionsUsed doc →
  materials doc !! i = Some m →
  getSpecGloss m (graph doc) = Some sg →
  (∀ l, specularGlossinessTexture sg = Some l →
        is_Some (textures (graph doc) !! texture l)) →
  ∃ ms g inp gi m' gi',
    convertMaterials (materials doc) (graph doc) [] = Ok (ms, g, inp) ∧
    doc' = finish (createExtensions doc) ms g inp ∧
    graph_le (graph doc) gi ∧ converted sg m gi m' gi' ∧ graph_le gi' g ∧
    ms !! i = Some m' ∧ materials doc' !! i = Some m'.
Proof.
  intros Hrun Hdecl Hi Hsg Htex.
  destruct (metalRough_declared _ _ _ Hdecl Hrun) as (ms & g & inp & Hloop & -> & _).
  destruct (convertMaterials_lookup _ _ _ _ _ _ _ _ Hloop Hi)
    as (gi & inpi & m1 & gi1 & inpi1 & Hle & Hm & Hle' & Hi').
  destruct (convertMaterial_converted m gi inpi sg) as (m' & gi' & Hm' & Hconv).
  { by rewrite (graph_le_getSpecGloss (graph doc)). }
  { intros l Hl. destruct (Htex l Hl) as [tx Htx]. exists tx.
    destruct Hle as (Hsub & _). by eapply lookup_weaken. }
  rewrite Hm in Hm'. injection Hm' as -> -> _.
  exists ms, g, inp, gi, m', gi'. split_and!; try done.
  rewrite (finish_material _ _ _ _ _ _ Hi'). f_equal.
  apply setExtension_None_absent.
  destruct Hconv as (_ & _ & _ & -> & _). apply lookup_delete_eq.
Qed.

Lemma converted_extensions sg m gi m' gi' :
  converted sg m gi m' gi' →
  extensions m' !! KHR_materials_specular = Some (fresh (dom (specularRecords gi))) ∧
  extensions m' !! KHR_materials_ior = Some (fresh (dom (iorRecords gi))).
Proof.
  intros (_ & _ & _ & -> & _). rewrite !lookup_delete_ne by done.
  by rewrite lookup_insert_eq, lookup_insert_ne, lookup_insert_eq.
Qed.

(** The records attached to a converted material, read in a graph that
    extends the one the conversion left. *)
Lemma converted_records sg m gi m' gi' g :
  converted sg m gi m' gi' → graph_le gi' g →
  getIOR m' g = Some (mkIOR 1000%float) ∧
  ∃ s, getSpecular m' g = Some s ∧
       specularFactor s = 1%float ∧
       specularColorFactor s = sgSpecularFactor sg.
Proof.
  intros Hconv (_ & _ & Hsub & Hsubi).
  destruct (converted_extensions _ _ _ _ _ Hconv) as [Hsid Hiid].
  destruct Hconv as (_ & _ & _ & _ & Hior & _ & Hrest).
  unfold getIOR, getSpecular. rewrite Hsid, Hiid. simpl.
  split.
  - eapply lookup_weaken; [|done]. rewrite Hior. apply lookup_insert_eq.
  - destruct (specularGlossinessTexture sg) as [l|].
    + destruct Hrest as (src & t1 & t2 & _ & _ & _ & _ & _ & _ & _ & Hsp).
      eexists. split; [eapply lookup_weaken; [|done]; rewrite Hsp; apply lookup_insert_eq|].
      done.
    + destruct Hrest as (_ & _ & _ & Hsp).
      eexists. split; [eapply lookup_weaken; [|done]; rewrite Hsp; apply lookup_insert_eq|].
      done.
Qed.

(** C1: a material with a spec/gloss record and no combined texture ends
    with roughness [1 - glossinessFactor], metallic factor 0, the diffuse
    factor as base colour, an IOR record of 1000 and a specular record with
    factor 1 and the input specular factor as colour. *)
Theorem scalar_conversion doc doc' log i m sg :
  metalRough doc = Ok (doc', log) →
  KHR_materials_pbrSpecularGlossiness ∈ extensionsUsed doc →
  materials doc !! i = Some m →
  getSpecGloss m (graph doc) = Some sg →
  specularGlossinessTexture sg = None →
  ∃ m' s,
    materials doc' !! i = Some m' ∧
    roughnessFactor m' = (1 - glossinessFactor sg)%float ∧
    metallicFactor m' = 0%float ∧
    baseColorFactor m' = diffuseFactor sg ∧
    getIOR m' (graph doc') = Some (mkIOR 1000%float) ∧
    getSpecular m' (graph doc') = Some s ∧
    specularFactor s = 1%float ∧
    specularColorFactor s = sgSpecularFactor sg.
Proof.
  intros Hrun Hdecl Hi Hsg Hnone.
  destruct (metalRough_converts _ _ _ _ _ _ Hrun Hdecl Hi Hsg)
    as (ms & g & inp & gi & m' & gi' & _ & -> & _ & Hconv & Hle & _ & Hi').
  { intros l Hl. congruence. }
  destruct (converted_records _ _ _ _ _ _ Hconv Hle) as (Hior & s & Hs & Hf & Hc).
  destruct (finish_fields doc ms g inp) as (_ & _ & _ & Hsp & Hio).
  exists m', s. unfold getIOR, getSpecular in *. rewrite Hsp, Hio.
  destruct Hconv as (Hb & Hmet & _ & _ & _ & _ & Hrest). rewrite Hnone in Hrest.
  destruct Hrest as (Hr & _). by split_and!.
Qed.

(** C8: the loop body first gives every converted material metallic factor
    0 and roughness factor 1; the metallic factor is still 0 when the run
    ends, and so is the roughness factor 1 when a combined texture is bound. *)
Theorem placeholder_factors doc doc' log i m sg :
  metalRough doc = Ok (doc', log) →
  KHR_materials_pbrSpecularGlossiness ∈ extensionsUsed doc →
  materials doc !! i = Some m →
  getSpecGloss m (graph doc) = Some sg →
  (∀ l, specularGlossinessTexture sg = Some l →
        is_Some (textures (graph doc) !! texture l)) →
  (∀ specular g,
     let m0 := (setUpMetalRough sg specular m g).1 in
     metallicFactor m0 = 0%float ∧ roughnessFactor m0 = 1%float ∧
     metallicFactor (moveDiffuse sg m0) = 0%float ∧
     roughnessFactor (moveDiffuse sg m0) = 1%float) ∧
  ∃ m', materials doc' !! i = Some m' ∧
        metallicFactor m' = 0%float ∧
        (is_Some (specularGlossinessTexture sg) → roughnessFactor m' = 1%float).
Proof.
  intros Hrun Hdecl Hi Hsg Htex. split.
  - intros specular g. unfold setUpMetalRough, moveDiffuse. simpl.
    by destruct (diffuseTexture sg).
  - destruct (metalRough_converts _ _ _ _ _ _ Hrun Hdecl Hi Hsg Htex)
      as (ms & g & inp & gi & m' & gi' & _ & _ & _ & Hconv & _ & _ & Hi').
    exists m'. destruct Hconv as (_ & Hmet & _ & _ & _ & _ & Hrest).
    split_and!; try done. intros [l Hl]. rewrite Hl in Hrest.
    by destruct Hrest as (? & ? & ? & _ & _ & _ & _ & ? & _).
Qed.

Lemma linked_unlinkMaterial t m :
  linksTo t (baseColorTexture m) = true ∨ linksTo t (metallicRoughnessTexture m) = true →
  unlinkMaterial t m ≠ m.
Proof.
  unfold unlinkMaterial, linksTo. intros [Hl|Hl] Heq.
  - apply (f_equal baseColorTexture) in Heq. simpl in Heq.
    unfold unlink, linksTo in Heq. rewrite Hl in Heq.
    apply bool_decide_eq_true in Hl. by destruct (baseColorTexture m).
  - apply (f_equal metallicRoughnessTexture) in Heq. simpl in Heq.
    unfold unlink, linksTo in Heq. rewrite Hl in Heq.
    apply bool_decide_eq_true in Hl. by destruct (metallicRoughnessTexture m).
Qed.

(** A texture bound by a material has another parent than the root. *)
Lemma listParents_material doc t i m :
  materials doc !! i = Some m →
  linksTo t (baseColorTexture m) = true ∨ linksTo t (metallicRoughnessTexture m) = true →
  length (listParents doc t) ≠ 1%nat.
Proof.
  intros Hi Hl (_ & Hms & _)%listParents_one.
  by apply (linked_unlinkMaterial t m Hl), (Hms i).
Qed.

(** A texture bound by a specular record has another parent than the root. *)
Lemma listParents_specular doc t id s :
  specularRecords (graph doc) !! id = Some s →
  linksTo t (specularTexture s) = true →
  length (listParents doc t) ≠ 1%nat.
Proof.
  intros Hs Hl (_ & _ & _ & Hsp)%listParents_one.
  specialize (Hsp id s Hs). apply (f_equal specularTexture) in Hsp.
  unfold unlinkSpecular, unlink in Hsp. simpl in Hsp. rewrite Hl in Hsp.
  unfold linksTo in Hl. apply bool_decide_eq_true in Hl.
  by destruct (specularTexture s).
Qed.

Lemma linksTo_link l : linksTo (texture l) (Some l) = true.
Proof. unfold linksTo. by apply bool_decide_eq_true. Qed.

(** A texture bound by a material of the final document is the texture the
    loop left in the graph. *)
Lemma finish_texture_of_material doc ms g inp i m t :
  ms !! i = Some m →
  linksTo t (baseColorTexture m) = true ∨ linksTo t (metallicRoughnessTexture m) = true →
  textures (graph (finish (createExtensions doc) ms g inp)) !! t = textures g !! t.
Proof.
  intros Hi Hl. destruct (finish_spec doc ms g inp) as [_ ->].
  rewrite decide_False; [done|]. intros [_ Hone]. revert Hone.
  apply (listParents_material _ t i
           (setExtension KHR_materials_pbrSpecularGlossiness None m)); [|done].
  unfold beforeCleanUp, disposeSpecGlossExtension. simpl.
  by rewrite list_lookup_fmap, Hi.
Qed.

Lemma finish_texture_of_specular doc ms g inp id s t :
  specularRecords g !! id = Some s →
  linksTo t (specularTexture s) = true →
  textures (graph (finish (createExtensions doc) ms g inp)) !! t = textures g !! t.
Proof.
  intros Hs Hl. destruct (finish_spec doc ms g inp) as [_ ->].
  rewrite decide_False; [done|]. intros [_ Hone]. revert Hone.
  by apply (listParents_specular _ t id s).
Qed.

(** C9: a converted material whose record binds a diffuse texture ends with
    that binding as its base-colour binding: the same texture, with the
    texture-coordinate index and the sampler of the diffuse binding; the
    texture itself is kept in the graph as it was. *)
Theorem diffuse_texture_shared doc doc' log i m sg d :
  metalRough doc = Ok (doc', log) →
  KHR_materials_pbrSpecularGlossiness ∈ extensionsUsed doc →
  materials doc !! i = Some m →
  getSpecGloss m (graph doc) = Some sg →
  (∀ l, specularGlossinessTexture sg = Some l →
        is_Some (textures (graph doc) !! texture l)) →
  diffuseTexture sg = Some d →
  ∃ m', materials doc' !! i = Some m' ∧
        baseColorTexture m' = Some d ∧
        getBaseColorTexture m' = Some (texture d) ∧
        (∀ tx, textures (graph doc) !! texture d = Some tx →
               textures (graph doc') !! texture d = Some tx).
Proof.
  intros Hrun Hdecl Hi Hsg Htex Hd.
  destruct (metalRough_converts _ _ _ _ _ _ Hrun Hdecl Hi Hsg Htex)
    as (ms & g & inp & gi & m' & gi' & Hloop & -> & Hle & Hconv & Hle' & Hms & Hi').
  exists m'. destruct Hconv as (_ & _ & Hb & _). rewrite Hd in Hb.
  split_and!; try done.
  - unfold getBaseColorTexture. by rewrite Hb.
  - intros tx Htx.
    rewrite (finish_texture_of_material doc ms g inp i m' (texture d) Hms)
      by (left; rewrite Hb; apply linksTo_link).
    destruct (convertMaterials_le _ _ _ _ _ _ Hloop) as (Hsub & _).
    by eapply lookup_weaken.
Qed.

Lemma get_byte p i j c :
  Forall (λ b, 0 <= b <= 255) (data p) → 0 <= get p i j c <= 255.
Proof.
  intros Hall. unfold get.
  destruct (data p !! offset p i j c) as [b|] eqn:Hb; simpl; [|lia].
  by apply (Forall_lookup_1 _ _ _ _ Hall Hb).
Qed.

Lemma sameShape_removeGlossiness p : sameShape p (rewritePixels removeGlossiness p).
Proof. apply rewritePixels_shape. intros q i j Hq. by apply sameShape_set. Qed.

Lemma sameShape_invertGlossiness gf p :
  sameShape p (rewritePixels (invertGlossiness gf) p).
Proof.
  apply rewritePixels_shape. intros q i j Hq.
  unfold invertGlossiness. by repeat apply sameShape_set.
Qed.

(** C2: a material whose record binds a combined specular+glossiness
    texture ends with two textures that were not in the document: the
    specular texture keeps channels 0-2 of the source and has 255 in channel
    3; the metallic-roughness texture has 0, [255 - round (alpha * glossiness)],
    0 and 255 in its four channels, for a glossiness factor in [0, 1]. *)
Theorem combined_texture_recoded doc doc' log i m sg l src :
  metalRough doc = Ok (doc', log) →
  KHR_materials_pbrSpecularGlossiness ∈ extensionsUsed doc →
  materials doc !! i = Some m →
  getSpecGloss m (graph doc) = Some sg →
  specularGlossinessTexture sg = Some l →
  textures (graph doc) !! texture l = Some src →
  wf_pixels (image src) →
  (0 <=? glossinessFactor sg)%float = true →
  (glossinessFactor sg <=? 1)%float = true →
  ∃ m' s ls lm ts tm,
    materials doc' !! i = Some m' ∧
    getSpecular m' (graph doc') = Some s ∧
    specularTexture s = Some ls ∧
    metallicRoughnessTexture m' = Some lm ∧
    textures (graph doc) !! texture ls = None ∧
    textures (graph doc) !! texture lm = None ∧
    texture ls ≠ texture lm ∧
    textures (graph doc') !! texture ls = Some ts ∧
    textures (graph doc') !! texture lm = Some tm ∧
    sameShape (image src) (image ts) ∧
    sameShape (image src) (image tm) ∧
    ∀ x y, (x < shape0 (image src))%nat → (y < shape1 (image src))%nat →
      get (image ts) x y 3 = 255 ∧
      (∀ c, (c < 3)%nat → get (image ts) x y c = get (image src) x y c) ∧
      get (image tm) x y 0 = 0 ∧
      JS.of_byte (get (image tm) x y 1) =
        (255 - JS.Math_round
                 (JS.of_byte (get (image src) x y 3) * glossinessFactor sg))%float ∧
      get (image tm) x y 2 = 0 ∧
      get (image tm) x y 3 = 255.
Proof.
  intros Hrun Hdecl Hi Hsg Hl Hsrc [Hlen Hbytes] Hg0 Hg1.
  destruct (metalRough_converts _ _ _ _ _ _ Hrun Hdecl Hi Hsg)
    as (ms & g & inp & gi & m' & gi' & Hloop & -> & Hle & Hconv & Hle' & Hms & Hi').
  { intros l' Hl'. assert (l' = l) as -> by congruence. by eexists. }
  destruct (converted_extensions _ _ _ _ _ Hconv) as [Hsid _].
  destruct Hconv as (_ & _ & _ & _ & _ & _ & Hrest). rewrite Hl in Hrest.
  destruct Hrest as (src' & t1 & t2 & Hsrc' & Ht1 & Ht2 & Hne & _ & Hmr & Hts & Hsp).
  destruct Hle as (Hsub & _). destruct Hle' as (Hsubt & _ & Hsubs & _).
  assert (src' = src) as ->.
  { pose proof (lookup_weaken _ _ _ _ Hsrc Hsub) as Hw. congruence. }
  set (s := mkSpecular 1%float (sgSpecularFactor sg)
              (Some (mkTextureLink t1 (textureInfo l) (textureSampler l)))) in *.
  assert (specularRecords g !! fresh (dom (specularRecords gi)) = Some s) as Hs.
  { eapply lookup_weaken; [|done]. rewrite Hsp. apply lookup_insert_eq. }
  destruct (finish_fields doc ms g inp) as (_ & _ & _ & Hspf & _).
  eexists m', s, _, _, _, _. split_and!.
  - done.
  - unfold getSpecular. by rewrite Hsid, Hspf.
  - done.
  - done.
  - simpl. by eapply lookup_weaken_None.
  - simpl. by eapply lookup_weaken_None.
  - done.
  - simpl. rewrite (finish_texture_of_specular doc ms g inp _ s t1 Hs)
      by apply linksTo_link.
    eapply lookup_weaken; [|done].
    rewrite Hts, lookup_insert_ne, lookup_insert_eq by done. done.
  - simpl. rewrite (finish_texture_of_material doc ms g inp i m' t2 Hms)
      by (right; rewrite Hmr; apply linksTo_link).
    eapply lookup_weaken; [|done]. rewrite Hts. apply lookup_insert_eq.
  - apply sameShape_removeGlossiness.
  - apply sameShape_invertGlossiness.
  - intros x y Hx Hy. simpl.
    rewrite !rewritePixels_removeGlossiness, !rewritePixels_invertGlossiness
      by (done || lia).
    split_and!; try done.
    + intros c Hc. rewrite rewritePixels_removeGlossiness by (done || lia).
      rewrite decide_False by lia. done.
    + apply roughness_is_byte; [by apply get_byte|done..].
Qed.

(** ** The clean-up set *)

Lemma elem_of_Set_add x y s : x ∈ Set_add y s ↔ x = y ∨ x ∈ s.
Proof.
  unfold Set_add. case_decide as Hy.
  - split; [by right|]. by intros [->|?].
  - rewrite elem_of_app, list_elem_of_singleton. tauto.
Qed.

Lemma NoDup_Set_add y s : NoDup s → NoDup (Set_add y s).
Proof.
  intros Hs. unfold Set_add. case_decide as Hy; [done|].
  apply NoDup_app. split_and!; [done| |apply NoDup_singleton].
  intros x Hx ->%list_elem_of_singleton. done.
Qed.

Lemma elem_of_stashTextures o sg m s :
  o ∈ stashTextures sg m s ↔
    (o = texture <$> specularGlossinessTexture sg ∨
     o = getBaseColorTexture m ∨ o = getMetallicRoughnessTexture m) ∨ o ∈ s.
Proof. unfold stashTextures. rewrite !elem_of_Set_add. tauto. Qed.

Lemma NoDup_stashTextures sg m s : NoDup s → NoDup (stashTextures sg m s).
Proof. intros. unfold stashTextures. by repeat apply NoDup_Set_add. Qed.

Lemma convertMaterial_inputTextures m g inp m' g' inp' :
  convertMaterial m g inp = Ok (m', g', inp') →
  inp' = match getSpecGloss m g with
         | Some sg => stashTextures sg m inp
         | None => inp
         end.
Proof.
  unfold convertMaterial.
  destruct (getSpecGloss m g) as [sg|]; [|by intros [= <- <- <-]].
  unfold createSpecular, setUpMetalRough, createIOR. cbv zeta. simpl.
  intros ([m1 g1] & _ & [= _ _ <-])%bind_Ok. done.
Qed.

(** The clean-up set has no duplicates, and holds the combined texture,
    the prior base-colour texture and the prior metallic-roughness texture
    of every material that carried a record. *)
Lemma convertMaterials_inputTextures ms : ∀ g inp ms' g' inp',
  convertMaterials ms g inp = Ok (ms', g', inp') → NoDup inp →
  NoDup inp' ∧
  ∀ o, o ∈ inp' ↔
       o ∈ inp ∨
       ∃ i m sg, ms !! i = Some m ∧ getSpecGloss m g = Some sg ∧
                 (o = texture <$> specularGlossinessTexture sg ∨
                  o = getBaseColorTexture m ∨ o = getMetallicRoughnessTexture m).
Proof.
  induction ms as [|m ms IH]; intros g inp ms' g' inp'; simpl.
  { intros [= <- <- <-] Hnd. split; [done|]. intros o. split; [by left|].
    by intros [?|(i & ? & ? & ? & _)]. }
  intros ([[m1 g1] inp1] & Hm & Hrest)%bind_Ok Hnd.
  apply bind_Ok in Hrest as ([[ms2 g2] inp2] & Hms & [= <- <- <-]).
  pose proof (convertMaterial_inputTextures _ _ _ _ _ _ Hm) as Hinp1.
  pose proof (convertMaterial_le _ _ _ _ _ _ Hm) as Hle.
  destruct (IH _ _ _ _ _ Hms) as [Hnd2 Hin2].
  { subst inp1. destruct (getSpecGloss m g); [by apply NoDup_stashTextures|done]. }
  split; [done|]. intros o. rewrite Hin2. clear Hin2. split.
  - intros [Ho|(i & m2 & sg & Hi & Hsg & Ho)].
    + subst inp1. destruct (getSpecGloss m g) as [sg|] eqn:Hsg; [|by left].
      apply elem_of_stashTextures in Ho as [Ho|Ho]; [|by left].
      right. by exists 0%nat, m, sg.
    + right. exists (S i), m2, sg. split_and!; try done.
      by rewrite <- (graph_le_getSpecGloss g g1).
  - intros [Ho|(i & m2 & sg & Hi & Hsg & Ho)].
    + left. subst inp1. destruct (getSpecGloss m g); [|done].
      apply elem_of_stashTextures. by right.
    + destruct i as [|i]; simpl in Hi.
      * injection Hi as <-. left. subst inp1. rewrite Hsg.
        apply elem_of_stashTextures. by left.
      * right. exists i, m2, sg. split_and!; try done.
        by rewrite (graph_le_getSpecGloss g g1).
Qed.

(** C5: the clean-up set has no duplicates and holds the three textures of
    every converted material; a texture of the set is disposed exactly when
    it had one parent when the clean-up began, textures that are not
    disposed stay as they were, and nothing but textures is removed. *)
Theorem cleanUp_disposes_single_parent doc doc' log :
  metalRough doc = Ok (doc', log) →
  KHR_materials_pbrSpecularGlossiness ∈ extensionsUsed doc →
  ∃ ms g inp,
    convertMaterials (materials doc) (graph doc) [] = Ok (ms, g, inp) ∧
    NoDup inp ∧
    (∀ o, o ∈ inp ↔
          ∃ i m sg, materials doc !! i = Some m ∧
                    getSpecGloss m (graph doc) = Some sg ∧
                    (o = texture <$> specularGlossinessTexture sg ∨
                     o = getBaseColorTexture m ∨
                     o = getMetallicRoughnessTexture m)) ∧
    doc' = withDocTextures (textures (graph doc')) (beforeCleanUp doc ms g) ∧
    (∀ t, Some t ∈ inp →
          (disposedBy (beforeCleanUp doc ms g) doc' t ↔
           length (listParents (beforeCleanUp doc ms g) t) = 1%nat)) ∧
    (∀ t, ¬ disposedBy (beforeCleanUp doc ms g) doc' t →
          textures (graph doc') !! t = textures (graph (beforeCleanUp doc ms g)) !! t).
Proof.
  intros Hrun Hdecl.
  destruct (metalRough_declared _ _ _ Hdecl Hrun) as (ms & g & inp & Hloop & -> & _).
  destruct (convertMaterials_inputTextures _ _ _ _ _ _ Hloop (NoDup_nil_2))
    as [Hnd Hin].
  destruct (finish_spec doc ms g inp) as [Heq Hget].
  exists ms, g, inp. split_and!; try done.
  - intros o. rewrite Hin. split; [|by right].
    by intros [[]%elem_of_nil|?].
  - intros t Ht. unfold disposedBy. rewrite Hget. simpl. split.
    + intros [[tx Htx] Hnone]. case_decide as Hc; [tauto|congruence].
    + intros Hone. rewrite decide_True by done. split; [|done].
      apply listParents_one in Hone as (Hx & _). exact Hx.
  - intros t Hnot. rewrite Hget. simpl. case_decide as Hc; [|done].
    exfalso. apply Hnot. unfold disposedBy. rewrite Hget.
    split; [|by rewrite decide_True].
    destruct Hc as [_ Hone]. by apply listParents_one in Hone as (Hx & _).
Qed.

(** ** The sample run *)

Lemma sampleDoc_run : metalRough sampleDoc = Ok (sampleOut, [(LogDebug, completeMessage)]).
Proof. vm_compute. reflexivity. Qed.

Lemma sampleDoc_declared :
  KHR_materials_pbrSpecularGlossiness ∈ extensionsUsed sampleDoc.
Proof. by left. Qed.

Lemma metalRough_without_extension_witness :
  metalRough undeclaredDoc = Ok (undeclaredDoc, [(LogWarn, notFoundMessage)]).
Proof. apply (metalRough_without_extension undeclaredDoc). apply not_elem_of_nil. Defined.

Lemma material_without_specGloss_unchanged_witness :
  materials sampleOut !! 2%nat = Some sampleMaterial2.
Proof.
  apply (material_without_specGloss_unchanged sampleDoc sampleOut _ 2 sampleMaterial2
           sampleDoc_run); reflexivity.
Defined.

Lemma specGloss_removed_witness :
  (KHR_materials_pbrSpecularGlossiness ∉ extensionsUsed sampleOut) ∧
  specGlossRecords (graph sampleOut) = ∅ ∧
  ∀ m, m ∈ materials sampleOut →
       extensions m !! KHR_materials_pbrSpecularGlossiness = None ∧
       getSpecGloss m (graph sampleOut) = None.
Proof. exact (specGloss_removed sampleDoc sampleOut _ sampleDoc_run sampleDoc_declared). Defined.

Lemma metalRough_twice_witness :
  (KHR_materials_pbrSpecularGlossiness ∉ extensionsUsed sampleOut) ∧
  metalRough sampleOut = Ok (sampleOut, [(LogWarn, notFoundMessage)]).
Proof. exact (metalRough_twice sampleDoc sampleOut _ sampleDoc_run). Defined.

Lemma ior_and_specular_declared_witness :
  KHR_materials_ior ∈ extensionsUsed sampleOut ∧
  KHR_materials_specular ∈ extensionsUsed sampleOut.
Proof.
  destruct (ior_and_specular_declared sampleDoc sampleOut _ sampleDoc_run
              sampleDoc_declared) as (ms & g & inp & _ & _ & _ & _ & Hior & Hspec).
  by split.
Defined.

Lemma scalar_conversion_witness :
  ∃ m' s,
    materials sampleOut !! 1%nat = Some m' ∧
    roughnessFactor m' = (1 - 0.75)%float ∧
    metallicFactor m' = 0%float ∧
    baseColorFactor m' = [0; 1; 0; 1]%float ∧
    getIOR m' (graph sampleOut) = Some (mkIOR 1000%float) ∧
    getSpecular m' (graph sampleOut) = Some s ∧
    specularFactor s = 1%float ∧
    specularColorFactor s = [0.25; 0.5; 0.75]%float.
Proof.
  apply (scalar_conversion sampleDoc sampleOut _ 1 sampleMaterial1 sampleSpecGloss1
           sampleDoc_run sampleDoc_declared); reflexivity.
Defined.

Lemma sampleSpecGloss0_texture l :
  specularGlossinessTexture sampleSpecGloss0 = Some l →
  is_Some (textures (graph sampleDoc) !! texture l).
Proof. intros [= <-]. by eexists. Qed.

Lemma placeholder_factors_witness :
  ∃ m', materials sampleOut !! 0%nat = Some m' ∧
        metallicFactor m' = 0%float ∧
        (is_Some (specularGlossinessTexture sampleSpecGloss0) →
         roughnessFactor m' = 1%float).
Proof.
  apply (placeholder_factors sampleDoc sampleOut _ 0 sampleMaterial0 sampleSpecGloss0
           sampleDoc_run sampleDoc_declared eq_refl eq_refl sampleSpecGloss0_texture).
Defined.

Lemma diffuse_texture_shared_witness :
  ∃ m', materials sampleOut !! 0%nat = Some m' ∧
        baseColorTexture m' = diffuseTexture sampleSpecGloss0 ∧
        getBaseColorTexture m' = Some 1%nat ∧
        (∀ tx, textures (graph sampleDoc) !! 1%nat = Some tx →
               textures (graph sampleOut) !! 1%nat = Some tx).
Proof.
  apply (diffuse_texture_shared sampleDoc sampleOut _ 0 sampleMaterial0 sampleSpecGloss0 _
           sampleDoc_run sampleDoc_declared eq_refl eq_refl sampleSpecGloss0_texture eq_refl).
Defined.

Lemma samplePixels_wf : wf_pixels samplePixels.
Proof. split; [reflexivity|]. repeat constructor; lia. Qed.

Lemma combined_texture_recoded_witness :
  ∃ m' s ls lm ts tm,
    materials sampleOut !! 0%nat = Some m' ∧
    getSpecular m' (graph sampleOut) = Some s ∧
    specularTexture s = Some ls ∧
    metallicRoughnessTexture m' = Some lm ∧
    textures (graph sampleDoc) !! texture ls = None ∧
    textures (graph sampleDoc) !! texture lm = None ∧
    texture ls ≠ texture lm ∧
    textures (graph sampleOut) !! texture ls = Some ts ∧
    textures (graph sampleOut) !! texture lm = Some tm ∧
    sameShape samplePixels (image ts) ∧
    sameShape samplePixels (image tm) ∧
    ∀ x y, (x < 1)%nat → (y < 2)%nat →
      get (image ts) x y 3 = 255 ∧
      (∀ c, (c < 3)%nat → get (image ts) x y c = get samplePixels x y c) ∧
      get (image tm) x y 0 = 0 ∧
      JS.of_byte (get (image tm) x y 1) =
        (255 - JS.Math_round (JS.of_byte (get samplePixels x y 3) * 0.5))%float ∧
      get (image tm) x y 2 = 0 ∧
      get (image tm) x y 3 = 255.
Proof.
  apply (combined_texture_recoded sampleDoc sampleOut _ 0 sampleMaterial0
           sampleSpecGloss0 _ (mkTexture samplePixels)
           sampleDoc_run sampleDoc_declared eq_refl eq_refl eq_refl eq_refl
           samplePixels_wf eq_refl eq_refl).
Defined.

Lemma cleanUp_disposes_single_parent_witness :
  ∃ ms g inp,
    convertMaterials (materials sampleDoc) (graph sampleDoc) [] = Ok (ms, g, inp) ∧
    NoDup inp ∧
    (∀ o, o ∈ inp ↔
          ∃ i m sg, materials sampleDoc !! i = Some m ∧
                    getSpecGloss m (graph sampleDoc) = Some sg ∧
                    (o = texture <$> specularGlossinessTexture sg ∨
                     o = getBaseColorTexture m ∨
                     o = getMetallicRoughnessTexture m)) ∧
    sampleOut = withDocTextures (textures (graph sampleOut)) (beforeCleanUp sampleDoc ms g) ∧
    (∀ t, Some t ∈ inp →
          (disposedBy (beforeCleanUp sampleDoc ms g) sampleOut t ↔
           length (listParents (beforeCleanUp sampleDoc ms g) t) = 1%nat)) ∧
    (∀ t, ¬ disposedBy (beforeCleanUp sampleDoc ms g) sampleOut t →
          textures (graph sampleOut) !! t =
            textures (graph (beforeCleanUp sampleDoc ms g)) !! t).
Proof.
  exact (cleanUp_disposes_single_parent sampleDoc sampleOut _ sampleDoc_run
           sampleDoc_declared).
Defined.

(** * Further properties of the converter *)

(** What the loop body makes of the fields that do not depend on the
    recoding, for any conversion that succeeds. *)
Lemma convertMaterial_fields m g inp m' g' inp' sg :
  convertMaterial m g inp = Ok (m', g', inp') →
  getSpecGloss m g = Some sg →
  baseColorTexture m' =
    match diffuseTexture sg with Some d => Some d | None => baseColorTexture m end ∧
  extensions m' =
    delete KHR_materials_pbrSpecularGlossiness
      (<[KHR_materials_specular := fresh (dom (specularRecords g))]>
         (<[KHR_materials_ior := fresh (dom (iorRecords g))]> (extensions m))) ∧
  (specularGlossinessTexture sg = None →
     metallicRoughnessTexture m' = metallicRoughnessTexture m) ∧
  is_Some (specularRecords g' !! fresh (dom (specularRecords g))) ∧
  is_Some (iorRecords g' !! fresh (dom (iorRecords g))).
Proof.
  unfold convertMaterial. intros Hrun Hsg. rewrite Hsg in Hrun. revert Hrun.
  unfold createSpecular, setUpMetalRough, createIOR, moveSpecularGlossiness, moveDiffuse.
  cbv zeta. simpl.
  destruct (specularGlossinessTexture sg) as [l|];
    unfold createTexture, rewriteTexture; simpl.
  - destruct (_ !! texture l) as [src1|] eqn:H1; simpl; [|done].
    match goal with
    | |- context [match ?x with Some _ => _ | None => _ end ≫= _] =>
        destruct x as [src2|] eqn:H2; simpl; [|done]
    end.
    intros [= <- <- <-]. unfold onSpecular, setIOR. simpl.
    rewrite !alter_insert_eq, !lookup_insert_eq.
    split_and!; try done; by destruct (diffuseTexture sg) as [[]|].
  - intros [= <- <- <-]. unfold onSpecular, setIOR. simpl.
    rewrite !alter_insert_eq, !lookup_insert_eq.
    split_and!; try done; by destruct (diffuseTexture sg) as [[]|].
Qed.



Lemma elem_of_createExtension name name' doc :
  name' ∈ extensionsUsed (createExtension name doc) ↔
    name' ∈ extensionsUsed doc ∨ name' = name.
Proof.
  unfold createExtension. case_bool_decide as Hin; simpl.
  - split; [by left|]. by intros [?| ->].
  - rewrite elem_of_app, list_elem_of_singleton. tauto.
Qed.

(** The extensions a document declares after a run: those it declared
    before, with the IOR and specular extensions, without the spec/gloss
    extension. *)
Theorem declared_extensions_after doc doc' log name :
  metalRough doc = Ok (doc', log) →
  KHR_materials_pbrSpecularGlossiness ∈ extensionsUsed doc →
  name ∈ extensionsUsed doc' ↔
    name ≠ KHR_materials_pbrSpecularGlossiness ∧
    (name ∈ extensionsUsed doc ∨ name = KHR_materials_ior ∨
     name = KHR_materials_specular).
Proof.
  intros Hrun Hdecl.
  destruct (metalRough_declared _ _ _ Hdecl Hrun) as (ms & g & inp & _ & -> & _).
  destruct (finish_fields doc ms g inp) as (-> & _).
  rewrite list_elem_of_filter. unfold createExtensions.
  rewrite !elem_of_createExtension. tauto.
Qed.



(** The run never changes the pixels of a texture of the document: a
    texture is either disposed or the texture it was. *)
Theorem textures_kept_or_disposed doc doc' log t tx :
  metalRough doc = Ok (doc', log) →
  textures (graph doc) !! t = Some tx →
  textures (graph doc') !! t = Some tx ∨ textures (graph doc') !! t = None.
Proof.
  intros Hrun Ht.
  destruct (decide (KHR_materials_pbrSpecularGlossiness ∈ extensionsUsed doc))
    as [Hdecl|Hundecl].
  - destruct (metalRough_declared _ _ _ Hdecl Hrun) as (ms & g & inp & Hloop & -> & _).
    destruct (finish_spec doc ms g inp) as [_ ->].
    case_decide; [by right|]. left.
    destruct (convertMaterials_le _ _ _ _ _ _ Hloop) as (Hsub & _).
    by eapply lookup_weaken.
  - rewrite metalRough_undeclared in Hrun by done. injection Hrun as <- _. by left.
Qed.



(** Two materials are converted one after the other: the graph the first
    conversion leaves is extended by the graph the second one starts in. *)
Lemma convertMaterials_lookup2 ms : ∀ g inp ms' g' inp' i j mi mj,
  convertMaterials ms g inp = Ok (ms', g', inp') →
  (i < j)%nat → ms !! i = Some mi → ms !! j = Some mj →
  ∃ gi inpi mi' gi' inpi' gj inpj mj' gj' inpj',
    graph_le g gi ∧ convertMaterial mi gi inpi = Ok (mi', gi', inpi') ∧
    graph_le gi' gj ∧ convertMaterial mj gj inpj = Ok (mj', gj', inpj') ∧
    graph_le gj' g' ∧ ms' !! i = Some mi' ∧ ms' !! j = Some mj'.
Proof.
  induction ms as [|m0 ms IH]; intros g inp ms' g' inp' i j mi mj; simpl; [done|].
  intros ([[m1 g1] inp1] & Hm & Hrest)%bind_Ok Hij Hi Hj.
  apply bind_Ok in Hrest as ([[ms2 g2] inp2] & Hms & [= <- <- <-]).
  destruct j as [|j]; [lia|]. simpl in Hj.
  destruct i as [|i]; simpl in Hi.
  - injection Hi as ->.
    destruct (convertMaterials_lookup _ _ _ _ _ _ _ _ Hms Hj)
      as (gj & inpj & mj' & gj' & inpj' & Hle & Hmj & Hle' & Hj').
    exists g, inp, m1, g1, inp1, gj, inpj, mj', gj', inpj'.
    split_and!; done || apply graph_le_refl.
  - destruct (IH _ _ _ _ _ i j mi mj Hms ltac:(lia) Hi Hj)
      as (gi & inpi & mi' & gi' & inpi' & gj & inpj & mj' & gj' & inpj'
          & Hle & ? & ? & ? & ? & ? & ?).
    exists gi, inpi, mi', gi', inpi', gj, inpj, mj', gj', inpj'.
    split_and!; try done.
    eapply graph_le_trans; [by eapply convertMaterial_le|done].
Qed.

Lemma fresh_ne_present {A} (m : gmap nat A) (i : nat) :
  is_Some (m !! i) → i ≠ fresh (dom m).
Proof.
  intros [x Hx] ->. by rewrite fresh_lookup_None in Hx.
Qed.

Lemma attached_records (exts : gmap string nat) (s r : nat) :
  let exts' :=
    delete KHR_materials_pbrSpecularGlossiness
      (<[KHR_materials_specular := s]> (<[KHR_materials_ior := r]> exts)) in
  exts' !! KHR_materials_specular = Some s ∧ exts' !! KHR_materials_ior = Some r.
Proof.
  cbv zeta. rewrite !lookup_delete_ne by done.
  by rewrite lookup_insert_eq, lookup_insert_ne, lookup_insert_eq.
Qed.

Lemma records_differ_ordered doc ms g inp i j mi mj sgi sgj :
  convertMaterials (materials doc) (graph doc) [] = Ok (ms, g, inp) →
  (i < j)%nat →
  materials doc !! i = Some mi → materials doc !! j = Some mj →
  getSpecGloss mi (graph doc) = Some sgi → getSpecGloss mj (graph doc) = Some sgj →
  ∃ mi' mj' si sj ri rj,
    ms !! i = Some mi' ∧ ms !! j = Some mj' ∧
    extensions mi' !! KHR_materials_specular = Some si ∧
    extensions mj' !! KHR_materials_specular = Some sj ∧ si ≠ sj ∧
    extensions mi' !! KHR_materials_ior = Some ri ∧
    extensions mj' !! KHR_materials_ior = Some rj ∧ ri ≠ rj.
Proof.
  intros Hloop Hij Hi Hj Hsgi Hsgj.
  destruct (convertMaterials_lookup2 _ _ _ _ _ _ _ _ _ _ Hloop Hij Hi Hj)
    as (gi & inpi & mi' & gi' & inpi' & gj & inpj & mj' & gj' & inpj'
        & Hle & Hmi & Hle' & Hmj & _ & Hi' & Hj').
  rewrite <- (graph_le_getSpecGloss _ gi mi Hle) in Hsgi.
  assert (graph_le (graph doc) gj) as Hlej.
  { eapply graph_le_trans; [done|].
    eapply graph_le_trans; [by eapply convertMaterial_le|done]. }
  rewrite <- (graph_le_getSpecGloss _ gj mj Hlej) in Hsgj.
  destruct (convertMaterial_fields _ _ _ _ _ _ _ Hmi Hsgi) as (_ & Hei & _ & Hsi & Hri).
  destruct (convertMaterial_fields _ _ _ _ _ _ _ Hmj Hsgj) as (_ & Hej & _ & _ & _).
  destruct Hle' as (_ & _ & Hsubs & Hsubr).
  exists mi', mj', (fresh (dom (specularRecords gi))), (fresh (dom (specularRecords gj))),
    (fresh (dom (iorRecords gi))), (fresh (dom (iorRecords gj))).
  rewrite Hei, Hej.
  destruct (attached_records (extensions mi) (fresh (dom (specularRecords gi)))
              (fresh (dom (iorRecords gi)))) as [-> ->].
  destruct (attached_records (extensions mj) (fresh (dom (specularRecords gj)))
              (fresh (dom (iorRecords gj)))) as [-> ->].
  split_and!; try done.
  - apply fresh_ne_present. destruct Hsi as [s Hs]. exists s. by eapply lookup_weaken.
  - apply fresh_ne_present. destruct Hri as [r Hr]. exists r. by eapply lookup_weaken.
Qed.

(** Two materials that carried a record never share a specular record or an
    IOR record after the run, even when they shared the spec/gloss record. *)
Theorem records_not_shared doc doc' log i j mi mj sgi sgj :
  metalRough doc = Ok (doc', log) →
  KHR_materials_pbrSpecularGlossiness ∈ extensionsUsed doc →
  i ≠ j →
  materials doc !! i = Some mi → materials doc !! j = Some mj →
  getSpecGloss mi (graph doc) = Some sgi → getSpecGloss mj (graph doc) = Some sgj →
  ∃ mi' mj' si sj ri rj,
    materials doc' !! i = Some mi' ∧ materials doc' !! j = Some mj' ∧
    extensions mi' !! KHR_materials_specular = Some si ∧
    extensions mj' !! KHR_materials_specular = Some sj ∧ si ≠ sj ∧
    extensions mi' !! KHR_materials_ior = Some ri ∧
    extensions mj' !! KHR_materials_ior = Some rj ∧ ri ≠ rj.
Proof.
  intros Hrun Hdecl Hne Hi Hj Hsgi Hsgj.
  destruct (metalRough_declared _ _ _ Hdecl Hrun) as (ms & g & inp & Hloop & -> & _).
  destruct (Nat.lt_total i j) as [Hlt|[Heq|Hgt]]; [|done|].
  - destruct (records_differ_ordered _ _ _ _ _ _ _ _ _ _ Hloop Hlt Hi Hj Hsgi Hsgj)
      as (mi' & mj' & si & sj & ri & rj & Hi' & Hj' & ? & ? & ? & ? & ? & ?).
    exists (setExtension KHR_materials_pbrSpecularGlossiness None mi'),
      (setExtension KHR_materials_pbrSpecularGlossiness None mj'), si, sj, ri, rj.
    rewrite (finish_material _ _ _ _ _ _ Hi'), (finish_material _ _ _ _ _ _ Hj').
    simpl. rewrite !lookup_delete_ne by done. by split_and!.
  - destruct (records_differ_ordered _ _ _ _ _ _ _ _ _ _ Hloop Hgt Hj Hi Hsgj Hsgi)
      as (mj' & mi' & sj & si & rj & ri & Hj' & Hi' & ? & ? & ? & ? & ? & ?).
    exists (setExtension KHR_materials_pbrSpecularGlossiness None mi'),
      (setExtension KHR_materials_pbrSpecularGlossiness None mj'), si, sj, ri, rj.
    rewrite (finish_material _ _ _ _ _ _ Hi'), (finish_material _ _ _ _ _ _ Hj').
    simpl. rewrite !lookup_delete_ne by done. by split_and!.
Qed.

(** The two textures a run generates for a material whose record binds a
    combined texture, as the final document holds them. *)
Lemma metalRough_recodes doc doc' log i m sg l src :
  metalRough doc = Ok (doc', log) →
  KHR_materials_pbrSpecularGlossiness ∈ extensionsUsed doc →
  materials doc !! i = Some m →
  getSpecGloss m (graph doc) = Some sg →
  specularGlossinessTexture sg = Some l →
  textures (graph doc) !! texture l = Some src →
  ∃ m' s t1 t2,
    materials doc' !! i = Some m' ∧
    getSpecular m' (graph doc') = Some s ∧
    specularTexture s = Some (mkTextureLink t1 (textureInfo l) (textureSampler l)) ∧
    metallicRoughnessTexture m' =
      Some (mkTextureLink t2 (textureInfo l) (textureSampler l)) ∧
    textures (graph doc') !! t1 =
      Some (mkTexture (rewritePixels removeGlossiness (image src))) ∧
    textures (graph doc') !! t2 =
      Some (mkTexture (rewritePixels (invertGlossiness (glossinessFactor sg)) (image src))).
Proof.
  intros Hrun Hdecl Hi Hsg Hl Hsrc.
  destruct (metalRough_converts _ _ _ _ _ _ Hrun Hdecl Hi Hsg)
    as (ms & g & inp & gi & m' & gi' & Hloop & -> & Hle & Hconv & Hle' & Hms & Hi').
  { intros l' Hl'. assert (l' = l) as -> by congruence. by eexists. }
  destruct (converted_extensions _ _ _ _ _ Hconv) as [Hsid _].
  destruct Hconv as (_ & _ & _ & _ & _ & _ & Hrest). rewrite Hl in Hrest.
  destruct Hrest as (src' & t1 & t2 & Hsrc' & Ht1 & Ht2 & Hne & _ & Hmr & Hts & Hsp).
  destruct Hle as (Hsub & _). destruct Hle' as (Hsubt & _ & Hsubs & _).
  assert (src' = src) as ->.
  { pose proof (lookup_weaken _ _ _ _ Hsrc Hsub) as Hw. congruence. }
  set (s := mkSpecular 1%float (sgSpecularFactor sg)
              (Some (mkTextureLink t1 (textureInfo l) (textureSampler l)))) in *.
  assert (specularRecords g !! fresh (dom (specularRecords gi)) = Some s) as Hs.
  { eapply lookup_weaken; [|done]. rewrite Hsp. apply lookup_insert_eq. }
  destruct (finish_fields doc ms g inp) as (_ & _ & _ & Hspf & _).
  exists m', s, t1, t2. split_and!; try done.
  - unfold getSpecular. by rewrite Hsid, Hspf.
  - rewrite (finish_texture_of_specular doc ms g inp _ s t1 Hs) by apply linksTo_link.
    eapply lookup_weaken; [|done].
    by rewrite Hts, lookup_insert_ne, lookup_insert_eq.
  - rewrite (finish_texture_of_material doc ms g inp i m' t2 Hms)
      by (right; rewrite Hmr; apply linksTo_link).
    eapply lookup_weaken; [|done]. rewrite Hts. apply lookup_insert_eq.
Qed.

(** The bindings of the two generated textures copy the texture-coordinate
    index and the sampler of the binding of the combined texture. *)
Theorem generated_bindings_inherit doc doc' log i m sg l :
  metalRough doc = Ok (doc', log) →
  KHR_materials_pbrSpecularGlossiness ∈ extensionsUsed doc →
  materials doc !! i = Some m →
  getSpecGloss m (graph doc) = Some sg →
  specularGlossinessTexture sg = Some l →
  is_Some (textures (graph doc) !! texture l) →
  ∃ m' s ls lm,
    materials doc' !! i = Some m' ∧
    getSpecular m' (graph doc') = Some s ∧
    specularTexture s = Some ls ∧
    metallicRoughnessTexture m' = Some lm ∧
    textureInfo ls = textureInfo l ∧ textureSampler ls = textureSampler l ∧
    textureInfo lm = textureInfo l ∧ textureSampler lm = textureSampler l.
Proof.
  intros Hrun Hdecl Hi Hsg Hl [src Hsrc].
  destruct (metalRough_recodes _ _ _ _ _ _ _ _ Hrun Hdecl Hi Hsg Hl Hsrc)
    as (m' & s & t1 & t2 & ? & ? & ? & ? & _).
  eexists m', s, _, _. by split_and!.
Qed.

Lemma full_glossiness_byte a :
  0 <= a <= 255 →
  JS.ToUint8 (255 - JS.Math_round (JS.of_byte a * 1))%float = 255 - a.
Proof.
  intros Ha. apply Z.eqb_eq.
  apply (byte_cases
           (λ a, JS.ToUint8 (255 - JS.Math_round (JS.of_byte a * 1))%float =? 255 - a));
    [by vm_compute|done].
Qed.

Lemma zero_glossiness_byte a :
  0 <= a <= 255 →
  JS.ToUint8 (255 - JS.Math_round (JS.of_byte a * 0))%float = 255.
Proof.
  intros Ha. apply Z.eqb_eq.
  apply (byte_cases
           (λ a, JS.ToUint8 (255 - JS.Math_round (JS.of_byte a * 0))%float =? 255));
    [by vm_compute|done].
Qed.

(** With a glossiness factor of 1 the roughness channel of the generated
    texture is the inverted alpha channel of the source. *)
Theorem full_glossiness_inverts_alpha doc doc' log i m sg l src :
  metalRough doc = Ok (doc', log) →
  KHR_materials_pbrSpecularGlossiness ∈ extensionsUsed doc →
  materials doc !! i = Some m →
  getSpecGloss m (graph doc) = Some sg →
  specularGlossinessTexture sg = Some l →
  textures (graph doc) !! texture l = Some src →
  wf_pixels (image src) →
  glossinessFactor sg = 1%float →
  ∃ m' lm tm,
    materials doc' !! i = Some m' ∧
    metallicRoughnessTexture m' = Some lm ∧
    textures (graph doc') !! texture lm = Some tm ∧
    ∀ x y, (x < shape0 (image src))%nat → (y < shape1 (image src))%nat →
      get (image tm) x y 1 = 255 - get (image src) x y 3.
Proof.
  intros Hrun Hdecl Hi Hsg Hl Hsrc [Hlen Hbytes] Hgf.
  destruct (metalRough_recodes _ _ _ _ _ _ _ _ Hrun Hdecl Hi Hsg Hl Hsrc)
    as (m' & s & t1 & t2 & Hi' & _ & _ & Hmr & _ & Ht2).
  eexists m', _, _. split_and!; [done..|].
  intros x y Hx Hy. simpl.
  rewrite rewritePixels_invertGlossiness by (done || lia).
  rewrite Hgf. by apply full_glossiness_byte, get_byte.
Qed.

(** With a glossiness factor of 0 the roughness channel of the generated
    texture is 255 at every pixel. *)
Theorem zero_glossiness_fully_rough doc doc' log i m sg l src :
  metalRough doc = Ok (doc', log) →
  KHR_materials_pbrSpecularGlossiness ∈ extensionsUsed doc →
  materials doc !! i = Some m →
  getSpecGloss m (graph doc) = Some sg →
  specularGlossinessTexture sg = Some l →
  textures (graph doc) !! texture l = Some src →
  wf_pixels (image src) →
  glossinessFactor sg = 0%float →
  ∃ m' lm tm,
    materials doc' !! i = Some m' ∧
    metallicRoughnessTexture m' = Some lm ∧
    textures (graph doc') !! texture lm = Some tm ∧
    ∀ x y, (x < shape0 (image src))%nat → (y < shape1 (image src))%nat →
      get (image tm) x y 1 = 255.
Proof.
  intros Hrun Hdecl Hi Hsg Hl Hsrc [Hlen Hbytes] Hgf.
  destruct (metalRough_recodes _ _ _ _ _ _ _ _ Hrun Hdecl Hi Hsg Hl Hsrc)
    as (m' & s & t1 & t2 & Hi' & _ & _ & Hmr & _ & Ht2).
  eexists m', _, _. split_and!; [done..|].
  intros x y Hx Hy. simpl.
  rewrite rewritePixels_invertGlossiness by (done || lia).
  rewrite Hgf. by apply zero_glossiness_byte, get_byte.
Qed.

Lemma join_imap_nil_2 {A B} (f : nat → A → list B) (l : list A) :
  (∀ i x, l !! i = Some x → f i x = []) → mjoin (imap f l) = [].
Proof.
  revert f. induction l as [|y l IH]; intros f Hf; [done|].
  rewrite imap_cons. simpl. rewrite (Hf 0%nat y eq_refl). simpl.
  apply IH. intros i x Hi. by apply (Hf (S i)).
Qed.

Lemma bind_nil_2 {A B} (f : A → list B) (l : list A) :
  (∀ x, x ∈ l → f x = []) → l ≫= f = [].
Proof.
  induction l as [|y l IH]; intros Hf; [done|].
  cbn. rewrite (Hf y) by left. simpl. apply IH. intros x Hx. apply Hf. by right.
Qed.

(** A texture of the graph that no material and no record binds has the
    root as its only parent. *)
Lemma listParents_root_only doc t :
  is_Some (textures (graph doc) !! t) →
  (∀ i m, materials doc !! i = Some m →
          linksTo t (baseColorTexture m) = false ∧
          linksTo t (metallicRoughnessTexture m) = false) →
  specGlossRecords (graph doc) = ∅ →
  (∀ id s, specularRecords (graph doc) !! id = Some s →
           linksTo t (specularTexture s) = false) →
  listParents doc t = [Root].
Proof.
  intros [tx Htx] Hms Hsg Hsp. unfold listParents. rewrite Htx, Hsg.
  rewrite map_to_list_empty. simpl.
  rewrite join_imap_nil_2, bind_nil_2; [done| |].
  - intros [id s] Hin. apply elem_of_map_to_list in Hin.
    unfold specularLinks, linkParent. simpl. by rewrite (Hsp id s Hin).
  - intros i m Hi. destruct (Hms i m Hi) as [Hb Hr].
    unfold materialLinks, linkParent. by rewrite Hb, Hr.
Qed.

Lemma linksTo_false t l : linksTo t l = false ↔ texture <$> l ≠ Some t.
Proof. unfold linksTo. apply bool_decide_eq_false. Qed.

Lemma linksTo_true t l : linksTo t l = true ↔ texture <$> l = Some t.
Proof. unfold linksTo. apply bool_decide_eq_true. Qed.

(** A texture that a converted material stashed is disposed by the run
    exactly when no material and no specular record of the final document
    binds it. *)
Theorem stashed_texture_disposed_iff_unbound doc doc' log i m sg t tx :
  metalRough doc = Ok (doc', log) →
  KHR_materials_pbrSpecularGlossiness ∈ extensionsUsed doc →
  materials doc !! i = Some m →
  getSpecGloss m (graph doc) = Some sg →
  Some t = texture <$> specularGlossinessTexture sg ∨
    Some t = getBaseColorTexture m ∨ Some t = getMetallicRoughnessTexture m →
  textures (graph doc) !! t = Some tx →
  textures (graph doc') !! t = None ↔
    (∀ j mj, materials doc' !! j = Some mj →
             getBaseColorTexture mj ≠ Some t ∧
             getMetallicRoughnessTexture mj ≠ Some t) ∧
    (∀ id s, specularRecords (graph doc') !! id = Some s →
             texture <$> specularTexture s ≠ Some t).
Proof.
  intros Hrun Hdecl Hi Hsg Hstash Ht.
  destruct (metalRough_declared _ _ _ Hdecl Hrun) as (ms & g & inp & Hloop & -> & _).
  destruct (convertMaterials_inputTextures _ _ _ _ _ _ Hloop NoDup_nil_2) as [_ Hin].
  assert (Some t ∈ inp) as Hinp.
  { apply Hin. right. by exists i, m, sg. }
  destruct (convertMaterials_le _ _ _ _ _ _ Hloop) as (Hsub & _).
  pose proof (lookup_weaken _ _ _ _ Ht Hsub) as Htg.
  destruct (finish_spec doc ms g inp) as [Heq Hget].
  set (doc' := finish (createExtensions doc) ms g inp) in *.
  assert (materials doc' = materials (beforeCleanUp doc ms g)) as Hmat by (by rewrite Heq).
  assert (specularRecords (graph doc') = specularRecords (graph (beforeCleanUp doc ms g)))
    as Hspec by (by rewrite Heq).
  rewrite Hget, Hmat, Hspec. split.
  - case_decide as Hc; [|by rewrite Htg].
    destruct Hc as [_ Hone]. intros _.
    destruct (listParents_one _ _ Hone) as (_ & Hms & _ & Hsp). split.
    + intros j mj Hj. specialize (Hms j mj Hj).
      unfold getBaseColorTexture, getMetallicRoughnessTexture.
      rewrite <- !linksTo_false.
      destruct (linksTo t (baseColorTexture mj)) eqn:Hb;
        [exfalso; by apply (linked_unlinkMaterial t mj); [left|]|].
      destruct (linksTo t (metallicRoughnessTexture mj)) eqn:Hr;
        [exfalso; by apply (linked_unlinkMaterial t mj); [right|]|].
      done.
    + intros id s Hs Hlink. apply linksTo_true in Hlink.
      by apply (listParents_specular _ t id s Hs Hlink).
  - intros [Hms Hsp]. rewrite decide_True; [done|]. split; [done|].
    rewrite listParents_root_only; [done|by eexists| |done|].
    + intros j mj Hj. rewrite !linksTo_false. by apply (Hms j).
    + intros id s Hs. rewrite linksTo_false. by apply (Hsp id).
Qed.

Lemma generated_differ_ordered doc ms g inp i j mi mj sgi sgj li lj :
  convertMaterials (materials doc) (graph doc) [] = Ok (ms, g, inp) →
  (i < j)%nat →
  materials doc !! i = Some mi → materials doc !! j = Some mj →
  getSpecGloss mi (graph doc) = Some sgi → getSpecGloss mj (graph doc) = Some sgj →
  specularGlossinessTexture sgi = Some li → specularGlossinessTexture sgj = Some lj →
  is_Some (textures (graph doc) !! texture li) →
  is_Some (textures (graph doc) !! texture lj) →
  ∃ mi' mj' si sj ai bi aj bj,
    ms !! i = Some mi' ∧ ms !! j = Some mj' ∧
    getSpecular mi' g = Some si ∧ getSpecular mj' g = Some sj ∧
    texture <$> specularTexture si = Some ai ∧
    getMetallicRoughnessTexture mi' = Some bi ∧
    texture <$> specularTexture sj = Some aj ∧
    getMetallicRoughnessTexture mj' = Some bj ∧
    ai ≠ bi ∧ aj ≠ bj ∧ ai ≠ aj ∧ ai ≠ bj ∧ bi ≠ aj ∧ bi ≠ bj.
Proof.
  intros Hloop Hij Hi Hj Hsgi Hsgj Hli Hlj [txi Htxi] [txj Htxj].
  destruct (convertMaterials_lookup2 _ _ _ _ _ _ _ _ _ _ Hloop Hij Hi Hj)
    as (gi & inpi & mi' & gi' & inpi' & gj & inpj & mj' & gj' & inpj'
        & Hle & Hmi & Hle' & Hmj & Hle'' & Hi' & Hj').
  assert (graph_le gi gi') as Hstep by (by eapply convertMaterial_le).
  assert (graph_le (graph doc) gj) as Hlej.
  { eapply graph_le_trans; [done|]. by eapply graph_le_trans. }
  assert (graph_le gi' g) as Hfin.
  { eapply graph_le_trans; [done|].
    eapply graph_le_trans; [by eapply convertMaterial_le|done]. }
  destruct (convertMaterial_converted mi gi inpi sgi) as (mi2 & gi2 & Hmi2 & Hci).
  { by rewrite (graph_le_getSpecGloss (graph doc)). }
  { intros l Hl. assert (l = li) as -> by congruence. exists txi.
    destruct Hle as (Hsub & _). by eapply lookup_weaken. }
  rewrite Hmi in Hmi2. injection Hmi2 as <- <- _.
  destruct (convertMaterial_converted mj gj inpj sgj) as (mj2 & gj2 & Hmj2 & Hcj).
  { by rewrite (graph_le_getSpecGloss (graph doc)). }
  { intros l Hl. assert (l = lj) as -> by congruence. exists txj.
    destruct Hlej as (Hsub & _). by eapply lookup_weaken. }
  rewrite Hmj in Hmj2. injection Hmj2 as <- <- _.
  destruct (converted_extensions _ _ _ _ _ Hci) as [Hsidi _].
  destruct (converted_extensions _ _ _ _ _ Hcj) as [Hsidj _].
  destruct Hci as (_ & _ & _ & _ & _ & _ & Hri). rewrite Hli in Hri.
  destruct Hri as (srci & ai & bi & _ & _ & _ & Hnei & _ & Hmri & Htsi & Hspi).
  destruct Hcj as (_ & _ & _ & _ & _ & _ & Hrj). rewrite Hlj in Hrj.
  destruct Hrj as (srcj & aj & bj & _ & Haj & Hbj & Hnej & _ & Hmrj & Htsj & Hspj).
  destruct Hfin as (_ & _ & Hsubi & _). destruct Hle'' as (_ & _ & Hsubj & _).
  destruct Hle' as (Htex & _).
  assert (is_Some (textures gj !! ai)) as Hai.
  { eexists. eapply lookup_weaken; [|done].
    by rewrite Htsi, lookup_insert_ne, lookup_insert_eq. }
  assert (is_Some (textures gj !! bi)) as Hbi.
  { eexists. eapply lookup_weaken; [|done]. rewrite Htsi. apply lookup_insert_eq. }
  assert (getSpecular mi' g =
            Some (mkSpecular 1%float (sgSpecularFactor sgi)
                    (Some (mkTextureLink ai (textureInfo li) (textureSampler li))))) as Hgi.
  { unfold getSpecular. rewrite Hsidi. simpl.
    eapply lookup_weaken; [|exact Hsubi]. rewrite Hspi. apply lookup_insert_eq. }
  assert (getSpecular mj' g =
            Some (mkSpecular 1%float (sgSpecularFactor sgj)
                    (Some (mkTextureLink aj (textureInfo lj) (textureSampler lj))))) as Hgj.
  { unfold getSpecular. rewrite Hsidj. simpl.
    eapply lookup_weaken; [|exact Hsubj]. rewrite Hspj. apply lookup_insert_eq. }
  assert (getMetallicRoughnessTexture mi' = Some bi) as Hbi'
    by (unfold getMetallicRoughnessTexture; by rewrite Hmri).
  assert (getMetallicRoughnessTexture mj' = Some bj) as Hbj'
    by (unfold getMetallicRoughnessTexture; by rewrite Hmrj).
  assert (ai ≠ aj) by (intros Heq; rewrite Heq in Hai; destruct Hai; congruence).
  assert (ai ≠ bj) by (intros Heq; rewrite Heq in Hai; destruct Hai; congruence).
  assert (bi ≠ aj) by (intros Heq; rewrite Heq in Hbi; destruct Hbi; congruence).
  assert (bi ≠ bj) by (intros Heq; rewrite Heq in Hbi; destruct Hbi; congruence).
  eexists mi', mj', _, _, ai, bi, aj, bj. by split_and!.
Qed.

Lemma NoDup_four {A} (a b c d : A) :
  a ≠ b → a ≠ c → a ≠ d → b ≠ c → b ≠ d → c ≠ d → NoDup [a; b; c; d].
Proof.
  intros. repeat (apply NoDup_cons; split); try apply NoDup_nil_2;
    rewrite ?not_elem_of_cons; repeat split; try done; apply not_elem_of_nil.
Qed.

(** Two materials whose records bind a combined texture get four textures
    of their own from the run: none is shared, even when the two records
    bind the same combined texture. *)
Theorem generated_textures_not_shared doc doc' log i j mi mj sgi sgj li lj :
  metalRough doc = Ok (doc', log) →
  KHR_materials_pbrSpecularGlossiness ∈ extensionsUsed doc →
  i ≠ j →
  materials doc !! i = Some mi → materials doc !! j = Some mj →
  getSpecGloss mi (graph doc) = Some sgi → getSpecGloss mj (graph doc) = Some sgj →
  specularGlossinessTexture sgi = Some li → specularGlossinessTexture sgj = Some lj →
  is_Some (textures (graph doc) !! texture li) →
  is_Some (textures (graph doc) !! texture lj) →
  ∃ mi' mj' si sj ai bi aj bj,
    materials doc' !! i = Some mi' ∧ materials doc' !! j = Some mj' ∧
    getSpecular mi' (graph doc') = Some si ∧ getSpecular mj' (graph doc') = Some sj ∧
    texture <$> specularTexture si = Some ai ∧
    getMetallicRoughnessTexture mi' = Some bi ∧
    texture <$> specularTexture sj = Some aj ∧
    getMetallicRoughnessTexture mj' = Some bj ∧
    NoDup [ai; bi; aj; bj].
Proof.
  intros Hrun Hdecl Hne Hi Hj Hsgi Hsgj Hli Hlj Htxi Htxj.
  destruct (metalRough_declared _ _ _ Hdecl Hrun) as (ms & g & inp & Hloop & -> & _).
  destruct (finish_fields doc ms g inp) as (_ & _ & _ & Hspf & _).
  assert (∀ m', getSpecular (setExtension KHR_materials_pbrSpecularGlossiness None m')
                  (graph (finish (createExtensions doc) ms g inp)) = getSpecular m' g)
    as Hget.
  { intros m'. unfold getSpecular. rewrite Hspf. simpl.
    by rewrite lookup_delete_ne. }
  destruct (Nat.lt_total i j) as [Hlt|[Heq|Hgt]]; [|done|].
  - destruct (generated_differ_ordered _ _ _ _ _ _ _ _ _ _ _ _ Hloop Hlt Hi Hj
                Hsgi Hsgj Hli Hlj Htxi Htxj)
      as (mi' & mj' & si & sj & ai & bi & aj & bj & Hi' & Hj' & ? & ? & ? & ? & ? & ?
          & ? & ? & ? & ? & ? & ?).
    exists (setExtension KHR_materials_pbrSpecularGlossiness None mi'),
      (setExtension KHR_materials_pbrSpecularGlossiness None mj'), si, sj, ai, bi, aj, bj.
    rewrite (finish_material _ _ _ _ _ _ Hi'), (finish_material _ _ _ _ _ _ Hj'), !Hget.
    split_and!; try done.
    by apply NoDup_four.
  - destruct (generated_differ_ordered _ _ _ _ _ _ _ _ _ _ _ _ Hloop Hgt Hj Hi
                Hsgj Hsgi Hlj Hli Htxj Htxi)
      as (mj' & mi' & sj & si & aj & bj & ai & bi & Hj' & Hi' & ? & ? & ? & ? & ? & ?
          & ? & ? & ? & ? & ? & ?).
    exists (setExtension KHR_materials_pbrSpecularGlossiness None mi'),
      (setExtension KHR_materials_pbrSpecularGlossiness None mj'), si, sj, ai, bi, aj, bj.
    rewrite (finish_material _ _ _ _ _ _ Hi'), (finish_material _ _ _ _ _ _ Hj'), !Hget.
    split_and!; try done.
    by apply NoDup_four.
Qed.

(** * The bundler configuration *)

Lemma string_app_nil_l (s : string) : EmptyString +:+ s = s.
Proof. reflexivity. Qed.











(** ** Sample runs of the further properties *)

Lemma twinDoc_run : metalRough twinDoc = Ok (outcome twinDoc, [(LogDebug, completeMessage)]).
Proof. vm_compute. reflexivity. Qed.

Lemma twinDoc_declared : KHR_materials_pbrSpecularGlossiness ∈ extensionsUsed twinDoc.
Proof. by left. Qed.

Lemma glossDoc_run gf :
  gf = 1%float ∨ gf = 0%float →
  metalRough (glossDoc gf) = Ok (outcome (glossDoc gf), [(LogDebug, completeMessage)]).
Proof. intros [-> | ->]; vm_compute; reflexivity. Qed.

Lemma glossDoc_declared gf :
  KHR_materials_pbrSpecularGlossiness ∈ extensionsUsed (glossDoc gf).
Proof. by left. Qed.


Lemma declared_extensions_after_witness :
  "KHR_materials_unlit" ∈ extensionsUsed (outcome twinDoc) ↔
    "KHR_materials_unlit" ≠ KHR_materials_pbrSpecularGlossiness ∧
    ("KHR_materials_unlit" ∈ extensionsUsed twinDoc ∨
     "KHR_materials_unlit" = KHR_materials_ior ∨
     "KHR_materials_unlit" = KHR_materials_specular).
Proof.
  exact (declared_extensions_after twinDoc (outcome twinDoc) _ "KHR_materials_unlit"
           twinDoc_run twinDoc_declared).
Defined.



Lemma textures_kept_or_disposed_witness :
  textures (graph sampleOut) !! 0%nat = Some (mkTexture samplePixels) ∨
  textures (graph sampleOut) !! 0%nat = None.
Proof.
  exact (textures_kept_or_disposed sampleDoc sampleOut _ 0 (mkTexture samplePixels)
           sampleDoc_run eq_refl).
Defined.




Lemma records_not_shared_witness :
  ∃ mi' mj' si sj ri rj,
    materials (outcome twinDoc) !! 0%nat = Some mi' ∧
    materials (outcome twinDoc) !! 1%nat = Some mj' ∧
    extensions mi' !! KHR_materials_specular = Some si ∧
    extensions mj' !! KHR_materials_specular = Some sj ∧ si ≠ sj ∧
    extensions mi' !! KHR_materials_ior = Some ri ∧
    extensions mj' !! KHR_materials_ior = Some rj ∧ ri ≠ rj.
Proof.
  apply (records_not_shared twinDoc (outcome twinDoc) _ 0 1 sampleMaterial0 sampleMaterial0
           sampleSpecGloss0 sampleSpecGloss0 twinDoc_run twinDoc_declared);
    [lia|reflexivity..].
Defined.

Lemma generated_textures_not_shared_witness :
  ∃ mi' mj' si sj ai bi aj bj,
    materials (outcome twinDoc) !! 0%nat = Some mi' ∧
    materials (outcome twinDoc) !! 1%nat = Some mj' ∧
    getSpecular mi' (graph (outcome twinDoc)) = Some si ∧
    getSpecular mj' (graph (outcome twinDoc)) = Some sj ∧
    texture <$> specularTexture si = Some ai ∧
    getMetallicRoughnessTexture mi' = Some bi ∧
    texture <$> specularTexture sj = Some aj ∧
    getMetallicRoughnessTexture mj' = Some bj ∧
    NoDup [ai; bi; aj; bj].
Proof.
  apply (generated_textures_not_shared twinDoc (outcome twinDoc) _ 0 1
           sampleMaterial0 sampleMaterial0 sampleSpecGloss0 sampleSpecGloss0
           (mkTextureLink 0 (mkTextureInfo 2) defaultTextureSampler)
           (mkTextureLink 0 (mkTextureInfo 2) defaultTextureSampler)
           twinDoc_run twinDoc_declared);
    [lia|reflexivity|reflexivity|reflexivity|reflexivity|reflexivity|reflexivity
    |by eexists|by eexists].
Defined.

Lemma generated_bindings_inherit_witness :
  ∃ m' s ls lm,
    materials sampleOut !! 0%nat = Some m' ∧
    getSpecular m' (graph sampleOut) = Some s ∧
    specularTexture s = Some ls ∧
    metallicRoughnessTexture m' = Some lm ∧
    textureInfo ls = mkTextureInfo 2 ∧ textureSampler ls = defaultTextureSampler ∧
    textureInfo lm = mkTextureInfo 2 ∧ textureSampler lm = defaultTextureSampler.
Proof.
  apply (generated_bindings_inherit sampleDoc sampleOut _ 0 sampleMaterial0
           sampleSpecGloss0 (mkTextureLink 0 (mkTextureInfo 2) defaultTextureSampler)
           sampleDoc_run sampleDoc_declared eq_refl eq_refl eq_refl).
  by eexists.
Defined.

Lemma full_glossiness_inverts_alpha_witness :
  ∃ m' lm tm,
    materials (outcome (glossDoc 1)) !! 0%nat = Some m' ∧
    metallicRoughnessTexture m' = Some lm ∧
    textures (graph (outcome (glossDoc 1))) !! texture lm = Some tm ∧
    ∀ x y, (x < 1)%nat → (y < 2)%nat →
      get (image tm) x y 1 = 255 - get samplePixels x y 3.
Proof.
  eapply (full_glossiness_inverts_alpha (glossDoc 1) (outcome (glossDoc 1)) _ 0 _ _
            (linkTexture 0) (mkTexture samplePixels)
            (glossDoc_run 1 (or_introl eq_refl)) (glossDoc_declared 1));
    [reflexivity|reflexivity|reflexivity|reflexivity|exact samplePixels_wf|reflexivity].
Defined.

Lemma zero_glossiness_fully_rough_witness :
  ∃ m' lm tm,
    materials (outcome (glossDoc 0)) !! 0%nat = Some m' ∧
    metallicRoughnessTexture m' = Some lm ∧
    textures (graph (outcome (glossDoc 0))) !! texture lm = Some tm ∧
    ∀ x y, (x < 1)%nat → (y < 2)%nat → get (image tm) x y 1 = 255.
Proof.
  eapply (zero_glossiness_fully_rough (glossDoc 0) (outcome (glossDoc 0)) _ 0 _ _
            (linkTexture 0) (mkTexture samplePixels)
            (glossDoc_run 0 (or_intror eq_refl)) (glossDoc_declared 0));
    [reflexivity|reflexivity|reflexivity|reflexivity|exact samplePixels_wf|reflexivity].
Defined.

Lemma stashed_texture_disposed_iff_unbound_witness :
  textures (graph sampleOut) !! 0%nat = None ↔
    (∀ j mj, materials sampleOut !! j = Some mj →
             getBaseColorTexture mj ≠ Some 0%nat ∧
             getMetallicRoughnessTexture mj ≠ Some 0%nat) ∧
    (∀ id s, specularRecords (graph sampleOut) !! id = Some s →
             texture <$> specularTexture s ≠ Some 0%nat).
Proof.
  apply (stashed_texture_disposed_iff_unbound sampleDoc sampleOut _ 0 sampleMaterial0
           sampleSpecGloss0 0 (mkTexture samplePixels) sampleDoc_run sampleDoc_declared);
    [reflexivity|reflexivity|by left|reflexivity].
Defined.


